(** * Lyric generation: a word-level n-gram model

    A shallow embedding of [lyric_generation.py]: the trainer [train_lm]
    (with [normalize]) and the generator [generate_text] (with
    [generate_word] and [unzip]), followed by the properties of the
    specification that were checked against them.

    Conventions of the embedding.
    - Python [str] is [string]; the characters that matter to the program are
      the space, the tab, the newline, the brackets and the parentheses.
    - A [collections.Counter] and a [dict] are association lists in insertion
      order, which is the iteration order Python guarantees for them.
    - [cnt/total] is computed over exact rationals ([Q], kept in lowest
      terms), not over binary floating point.
    - An uncaught exception is a [Raise] in the [result] type.
    - The pseudorandom source of [np.random.choice] is a sequence of draws
      [rng : nat -> Q], one draw in [0, 1) per call. *)

From Stdlib Require Import String Ascii List Arith Bool Lia ZArith QArith.
From Stdlib Require Import Permutation Sorted.
Import ListNotations.

Local Close Scope Q_scope.
Local Open Scope nat_scope.
Local Open Scope string_scope.
Local Open Scope list_scope.

(** String concatenation is written [+++] here, [++] is kept for lists. *)
Infix "+++" := String.append (right associativity, at level 60).

(** ** Exceptions *)

Inductive exn : Type :=
| IndexError
| ValueError
| ZeroDivisionError.

Inductive result (A : Type) : Type :=
| Ok (a : A)
| Raise (e : exn).

Arguments Ok {A} a.
Arguments Raise {A} e.

Definition bind {A B : Type} (r : result A) (k : A -> result B) : result B :=
  match r with
  | Ok a => k a
  | Raise e => Raise e
  end.

Notation "x <- r ;; k" := (bind r (fun x => k))
  (at level 61, r at next level, right associativity).
Notation "' p <- r ;; k" := (bind r (fun p => k))
  (at level 61, p pattern, r at next level, right associativity).

(** A [for] loop whose body may raise: the state is threaded through the
    elements in order and the first exception ends the loop. *)
Fixpoint for_each {A S : Type} (body : S -> A -> result S) (l : list A) (s : S)
  : result S :=
  match l with
  | [] => Ok s
  | x :: l' => s' <- body s x ;; for_each body l' s'
  end.

(** ** Python string operations *)

Module Str.

Definition space : ascii := " "%char.
Definition tab : ascii := "009"%char.
Definition newline : ascii := "010"%char.

(** [c in s] for a one-character [c]. *)
Fixpoint contains_char (c : ascii) (s : string) : bool :=
  match s with
  | EmptyString => false
  | String d s' => Ascii.eqb c d || contains_char c s'
  end.

(** [s.startswith(p)]. *)
Fixpoint starts_with (p s : string) : bool :=
  match p, s with
  | EmptyString, _ => true
  | String c p', String d s' => Ascii.eqb c d && starts_with p' s'
  | String _ _, EmptyString => false
  end.

(** [p in s]: [p] occurs in [s] as a contiguous substring. *)
Fixpoint contains (p s : string) : bool :=
  starts_with p s ||
  match s with
  | EmptyString => false
  | String _ s' => contains p s'
  end.

(** Splitting at every single separator character, as [s.split(" ")] and
    [re.split(' |\n|\t', s)] do: two adjacent separators give an empty piece,
    and the empty string gives the one-element list of the empty string. *)
Fixpoint split_on (sep : ascii -> bool) (s : string) : list string :=
  match s with
  | EmptyString => [EmptyString]
  | String c s' =>
      if sep c then EmptyString :: split_on sep s'
      else match split_on sep s' with
           | [] => [String c EmptyString]
           | w :: ws => String c w :: ws
           end
  end.

(** [sep.join(l)]. *)
Fixpoint join (sep : string) (l : list string) : string :=
  match l with
  | [] => EmptyString
  | w :: l' =>
      match l' with
      | [] => w
      | _ :: _ => w +++ sep +++ join sep l'
      end
  end.

(** [s * k]. *)
Fixpoint repeat_str (s : string) (k : nat) : string :=
  match k with
  | O => EmptyString
  | S k' => s +++ repeat_str s k'
  end.

(** [s[-1]]: the last character, which does not exist in the empty string. *)
Fixpoint last_char (s : string) : result ascii :=
  match s with
  | EmptyString => Raise IndexError
  | String c EmptyString => Ok c
  | String _ s' => last_char s'
  end.

(** [s[0]]. *)
Definition first_char (s : string) : result ascii :=
  match s with
  | EmptyString => Raise IndexError
  | String c _ => Ok c
  end.

(** [s[1:]]. *)
Definition drop_first (s : string) : string :=
  match s with
  | EmptyString => EmptyString
  | String _ s' => s'
  end.

(** [s[:-1]]. *)
Fixpoint drop_last (s : string) : string :=
  match s with
  | EmptyString => EmptyString
  | String _ EmptyString => EmptyString
  | String c s' => String c (drop_last s')
  end.

Definition is_empty (s : string) : bool :=
  match s with
  | EmptyString => true
  | String _ _ => false
  end.

End Str.

(** ** Counters and the raw model *)

(** [collections.Counter]: word -> count, in first-insertion order. *)
Definition counter : Type := list (string * nat).

(** [defaultdict(Counter)]: history -> counter, in first-insertion order. *)
Definition model : Type := list (string * counter).

(** [d[k] = f(d[k])] on a dictionary with a default value for missing keys:
    an existing entry is updated where it stands, a new key is appended after
    all the others. *)
Fixpoint upsert {V : Type} (k : string) (f : V -> V) (default : V)
    (d : list (string * V)) : list (string * V) :=
  match d with
  | [] => [(k, f default)]
  | (k', v) :: d' =>
      if String.eqb k k' then (k', f v) :: d'
      else (k', v) :: upsert k f default d'
  end.

(** [counter[w] += 1]; a missing word counts 0. *)
Definition counter_incr (w : string) (c : counter) : counter :=
  upsert w (fun k => k + 1) 0 c.

(** [model[history][word] += 1]; a missing history has an empty counter. *)
Definition model_incr (history word : string) (m : model) : model :=
  upsert history (counter_incr word) [] m.

(** ** [normalize] *)

(** [sum(counter.values())]. *)
Definition total (c : counter) : nat :=
  fold_right (fun e acc => snd e + acc) 0 c.

(** [Counter.most_common()] is [sorted(items, key=count, reverse=True)], a
    stable sort: entries with equal counts keep their order.  A stable sort
    has one possible result, computed here by insertion. *)
Fixpoint insert_desc (x : string * nat) (l : counter) : counter :=
  match l with
  | [] => [x]
  | y :: l' => if (snd x <? snd y)%nat then y :: insert_desc x l' else x :: l
  end.

Definition most_common (c : counter) : counter :=
  fold_right insert_desc [] c.

(** [cnt/total], the true division of two integers. *)
Definition true_div (cnt tot : nat) : result Q :=
  if (tot =? 0)%nat then Raise ZeroDivisionError
  else Ok (Qred (inject_Z (Z.of_nat cnt) / inject_Z (Z.of_nat tot))).

Definition normalize (c : counter) : result (list (string * Q)) :=
  let tot := total c in
  for_each
    (fun acc e => q <- true_div (snd e) tot ;; Ok (acc ++ [(fst e, q)]))
    (most_common c) [].

(** ** [train_lm] *)

Inductive lyrics : Type :=
| Song (s : string)
| Songs (l : list string).

Definition language_model : Type := list (string * list (string * Q)).

Definition is_sep (c : ascii) : bool :=
  Ascii.eqb c Str.space || Ascii.eqb c Str.newline || Ascii.eqb c Str.tab.

(** [re.split(' |\n|\t', s)]. *)
Definition re_split (s : string) : list string := Str.split_on is_sep s.

(** ["~ " * (n-1)]; for [n <= 1] Python gives the empty string, as the
    truncated subtraction does here. *)
Definition init_history (n : nat) : string := Str.repeat_str "~ " (n - 1).

(** The test that skips tokens like "[Chorus]" or "". *)
Definition skipped (word : string) : bool :=
  Str.contains_char "["%char word || Str.contains_char "]"%char word
  || Str.is_empty word.

(** The history update, written out three times in the source (twice in
    [train_lm], once in [generate_text]) with the same text; the slice
    [[1:]] of the list of pieces is [tl]. *)
Definition slide (history word : string) : result string :=
  c <- Str.last_char history ;;
  if Ascii.eqb c Str.space
  then Ok (Str.join " " (tl (Str.split_on (Ascii.eqb Str.space) history)) +++ word)
  else Ok (Str.join " " (tl (Str.split_on (Ascii.eqb Str.space) history)) +++ " " +++ word).

(** The body of the inner loop, for one word of one song of a list. *)
Definition train_word (st : model * string) (word : string)
  : result (model * string) :=
  let (m, history) := st in
  if skipped word then Ok (m, history)
  else
    let m' := model_incr history word m in
    history' <- slide history word ;;
    Ok (m', history').

(** The body of the outer loop when the input was a list: [item] is the tuple
    of the tokens of one song. *)
Definition train_song (n : nat) (m : model) (item : list string) : result model :=
  '(m', _) <- for_each train_word item (m, init_history n) ;;
  Ok m'.

(** The body of the outer loop when the input was one string: [item] is one
    token, and the history was set anew just before it. *)
Definition train_token (n : nat) (m : model) (item : string) : result model :=
  '(m', _) <- train_word (m, init_history n) item ;;
  Ok m'.

(** The counts before normalisation. *)
Definition train_counts (l : lyrics) (n : nat) : result model :=
  match l with
  | Songs items => for_each (train_song n) (map re_split items) []
  | Song s => for_each (train_token n) (re_split s) []
  end.

(** The dict comprehension over [model.items()]. *)
Definition normalize_all (m : model) : result language_model :=
  for_each (fun acc e => l <- normalize (snd e) ;; Ok (acc ++ [(fst e, l)])) m [].

Definition train_lm (l : lyrics) (n : nat) : result language_model :=
  m <- train_counts l n ;;
  normalize_all m.

(** ** [generate_word] *)

(** [history in lm] and [lm[history]]. *)
Fixpoint lm_get (lm : language_model) (history : string)
  : option (list (string * Q)) :=
  match lm with
  | [] => None
  | (h, l) :: lm' => if String.eqb history h then Some l else lm_get lm' history
  end.

(** [unzip(pairs)] for a list of pairs: the tuple of the two columns, or
    the empty tuple ([None]) when there is no pair at all, which the
    assignment [word, prob = ...] cannot unpack. *)
Definition unzip {A B : Type} (pairs : list (A * B)) : option (list A * list B) :=
  match pairs with
  | [] => None
  | _ :: _ => Some (map fst pairs, map snd pairs)
  end.

Definition sumQ (p : list Q) : Q := fold_right Qplus 0%Q p.

(** The index search of [np.random.choice]: the first position whose
    cumulative probability exceeds the draw [u]. *)
Fixpoint searchsorted (u acc : Q) (a : list string) (p : list Q) : result string :=
  match a, p with
  | w :: a', q :: p' =>
      let acc' := (acc + q)%Q in
      if Qlt_le_dec u acc' then Ok w else searchsorted u acc' a' p'
  | _, _ => Raise IndexError
  end.

(** [np.random.choice(a, p=p)] on the draw [u]: numpy rejects an empty [a],
    a [p] of another size, a negative probability and a [p] that does not
    sum to 1, and otherwise returns the element selected by [u] through the
    cumulative distribution. *)
Definition np_random_choice (u : Q) (a : list string) (p : list Q) : result string :=
  if (length a =? 0)%nat then Raise ValueError
  else if negb (length a =? length p)%nat then Raise ValueError
  else if existsb (fun q => if Qlt_le_dec q 0 then true else false) p
       then Raise ValueError
  else if negb (Qeq_bool (sumQ p) 1) then Raise ValueError
  else searchsorted u 0 a p.

(** The state of the pseudorandom source is the number [drawn] of draws made
    so far; the function returns the word and the new state. *)
Definition generate_word (rng : nat -> Q) (lm : language_model)
    (history : string) (drawn : nat) : result (string * nat) :=
  match lm_get lm history with
  | None => Ok ("~", drawn)
  | Some pairs =>
      match unzip pairs with
      | None => Raise ValueError
      | Some (word, prob) =>
          w <- np_random_choice (rng drawn) word prob ;;
          Ok (w, S drawn)
      end
  end.

(** ** [generate_text] *)

(** [text[i]] and [text[i] = x], which raise out of range. *)
Definition get_item (text : list string) (i : nat) : result string :=
  match nth_error text i with
  | Some w => Ok w
  | None => Raise IndexError
  end.

Fixpoint set_item (text : list string) (i : nat) (x : string)
  : result (list string) :=
  match text, i with
  | [], _ => Raise IndexError
  | _ :: text', O => Ok (x :: text')
  | w :: text', S i' => t <- set_item text' i' x ;; Ok (w :: t)
  end.

Record gen_state : Type := mk_gen_state {
  gs_history : string;
  gs_text : list string;
  gs_drawn : nat
}.

(** The body of the generation loop. *)
Definition gen_step (rng : nat -> Q) (lm : language_model) (st : gen_state)
    (i : nat) : result gen_state :=
  '(word, drawn) <- generate_word rng lm (gs_history st) (gs_drawn st) ;;
  let text := gs_text st ++ [word] in
  history <- slide (gs_history st) word ;;
  Ok (mk_gen_state history text drawn).

(** The generation loop, [for i in range(n_words)]. *)
Definition gen_loop (rng : nat -> Q) (lm : language_model) (n n_words : nat)
  : result gen_state :=
  for_each (gen_step rng lm) (seq 0 n_words) (mk_gen_state (init_history n) [] 0).

(** First pass: a word that contains "(" loses its first character. *)
Definition strip_open_at (text : list string) (i : nat) : result (list string) :=
  w <- get_item text i ;;
  if Str.contains_char "("%char w
  then w' <- get_item text i ;; set_item text i (Str.drop_first w')
  else Ok text.

Definition strip_open (text : list string) : result (list string) :=
  for_each strip_open_at (seq 0 (length text)) text.

(** Second pass: a word that contains ")" loses its last character. *)
Definition strip_close_at (text : list string) (i : nat) : result (list string) :=
  w <- get_item text i ;;
  if Str.contains_char ")"%char w
  then w' <- get_item text i ;; set_item text i (Str.drop_last w')
  else Ok text.

Definition strip_close (text : list string) : result (list string) :=
  for_each strip_close_at (seq 0 (length text)) text.

Definition nl : string := String Str.newline EmptyString.

(** Third pass, one song of a list of songs: the second test of the [and] is
    evaluated only when the first one holds. *)
Definition recover_in_song (i : nat) (text : list string) (item : string)
  : result (list string) :=
  w <- get_item text i ;;
  if Str.contains (nl +++ w) item then
    w0 <- get_item text i ;;
    c <- Str.first_char w0 ;;
    if negb (Ascii.eqb c Str.newline)
    then w' <- get_item text i ;; set_item text i (nl +++ w')
    else Ok text
  else Ok text.

(** Third pass, the body for position [i]. *)
Definition recover_at (original : lyrics) (text : list string) (i : nat)
  : result (list string) :=
  match original with
  | Songs items => for_each (recover_in_song i) items text
  | Song s =>
      w <- get_item text i ;;
      if Str.contains (nl +++ w) s
      then w' <- get_item text i ;; set_item text i (nl +++ w')
      else Ok text
  end.

(** [for i in range(1, len(text))]. *)
Definition recover_lines (original : lyrics) (text : list string)
  : result (list string) :=
  for_each (recover_at original) (seq 1 (length text - 1)) text.

(** Python values that [generate_text] can return. *)
Inductive pyval : Type :=
| PyNone
| PyStr (s : string).

(** What a call leaves behind: the text written to standard output and the
    value returned. *)
Record outcome : Type := mk_outcome {
  stdout : string;
  returned : pyval
}.

(** [print(s)] writes [s] and a newline, and returns [None]. *)
Definition print (s : string) : outcome := mk_outcome (s +++ nl) PyNone.

(** The three passes over the generated words. *)
Definition post_process (original : lyrics) (text : list string)
  : result (list string) :=
  t1 <- strip_open text ;;
  t2 <- strip_close t1 ;;
  recover_lines original t2.

Definition generate_text (rng : nat -> Q) (original : lyrics)
    (lm : language_model) (n n_words : nat) : result outcome :=
  st <- gen_loop rng lm n n_words ;;
  text <- post_process original (gs_text st) ;;
  (* [return print(" ".join(text))] *)
  Ok (print (Str.join " " text)).

(** * Vocabulary of the properties *)

(** Splitting at spaces, as [slide] does. *)
Definition at_space : ascii -> bool := Ascii.eqb Str.space.

(** A word: not empty, and without a space. *)
Definition is_word (w : string) : bool :=
  negb (Str.is_empty w) && negb (Str.contains_char Str.space w).

(** A counter as training leaves it: some word was counted, no word is listed
    twice, no listed word is a skipped token, and every count is positive. *)
Definition counter_ok (c : counter) : Prop :=
  c <> [] /\ NoDup (map fst c) /\
  Forall (fun e => skipped (fst e) = false /\ 1 <= snd e) c.

Definition model_ok (m : model) : Prop :=
  NoDup (map fst m) /\
  Forall (fun e => skipped (fst e) = false /\ counter_ok (snd e)) m.

Definition train_state_ok (st : model * string) : Prop :=
  model_ok (fst st) /\ skipped (snd st) = false.

Definition descending (s : counter) : Prop :=
  StronglySorted (fun x y => snd y <= snd x) s.

(** Entries with the same count stand in [s] in the order they have in [c]. *)
Definition ties_in_order_of (c s : counter) : Prop :=
  forall k, filter (fun e => (snd e =? k)%nat) s = filter (fun e => (snd e =? k)%nat) c.

(** [dist] lists the words of [s] in the same order, each with its count
    divided by the total of [c]. *)
Definition frequencies_of (c s : counter) (dist : list (string * Q)) : Prop :=
  Forall2
    (fun e p => fst p = fst e /\
                (snd p == inject_Z (Z.of_nat (snd e)) / inject_Z (Z.of_nat (total c)))%Q)
    s dist.

(** The list that [normalize] returns when the total is not zero. *)
Definition distribution (c : counter) : list (string * Q) :=
  map (fun e => (fst e,
                 Qred (inject_Z (Z.of_nat (snd e)) / inject_Z (Z.of_nat (total c)))))
      (most_common c).

Definition is_token (w : string) : bool := negb (skipped w).

(** The corpus has a token that training does not skip. *)
Definition has_token (l : lyrics) : bool :=
  match l with
  | Song s => existsb is_token (re_split s)
  | Songs items => existsb (fun item => existsb is_token (re_split item)) items
  end.

(** A list that [np.random.choice] accepts as a distribution. *)
Definition valid_dist (pairs : list (string * Q)) : bool :=
  negb (length pairs =? 0)%nat
  && negb (existsb (fun q => if Qlt_le_dec q 0 then true else false) (map snd pairs))
  && Qeq_bool (sumQ (map snd pairs)) 1.

(** A model in the sense of the data model: every list is a distribution
    and no word is the empty string. *)
Definition valid_lm (lm : language_model) : bool :=
  forallb (fun e => valid_dist (snd e)
                    && forallb (fun p => negb (Str.is_empty (fst p))) (snd e)) lm.

(** What the first two passes do to one word. *)
Definition strip_open_word (w : string) : string :=
  if Str.contains_char "("%char w then Str.drop_first w else w.

Definition strip_close_word (w : string) : string :=
  if Str.contains_char ")"%char w then Str.drop_last w else w.

(** No word after the first one is the empty string. *)
Definition no_empty_word_after_first (text : list string) : Prop :=
  forall j w, 1 <= j -> nth_error text j = Some w -> w <> "".

Definition love_songs : lyrics := Songs ["I love cats I love dogs"; "I love you"].

Definition love_lm : language_model :=
  [("~ ~ ", [("I", 1%Q)]); ("~ I", [("love", 1%Q)]);
   ("I love", [("cats", 1 # 3); ("dogs", 1 # 3); ("you", 1 # 3)]%Q);
   ("love cats", [("I", 1%Q)]); ("cats I", [("love", 1%Q)])].

Definition yeah_songs : lyrics := Songs ["oh (yeah, yeah), oh"].

Definition paren_song : string := "( (" +++ nl +++ "(".

Definition paren_lm : language_model :=
  [("~ ~ ", [("(", 1%Q)]); ("~ (", [("(", 1%Q)]); ("( (", [("(", 1%Q)])].

(** The history is exactly (n-1) non-empty words joined by single spaces,
    with no space before the first or after the last. *)
Definition is_history (n : nat) (h : string) : bool :=
  let ws := Str.split_on (Ascii.eqb Str.space) h in
  (length ws =? n - 1)%nat && forallb (fun w => negb (Str.is_empty w)) ws.

(** The words of a history, whatever the spaces around them. *)
Definition history_words (h : string) : list string :=
  filter (fun w => negb (Str.is_empty w)) (Str.split_on (Ascii.eqb Str.space) h).

(** The histories that training and generation go through. *)
Definition hist_inv (n : nat) (h : string) : Prop :=
  h = init_history n \/ is_history n h = true.

(** No word of the model has a space in it. *)
Definition spacefree_lm (lm : language_model) : bool :=
  forallb (fun e => forallb (fun p => negb (Str.contains_char Str.space (fst p))) (snd e)) lm.

Definition counter_spacefree (c : counter) : Prop :=
  Forall (fun e => Str.contains_char Str.space (fst e) = false) c.

Definition model_spacefree (m : model) : Prop :=
  Forall (fun e => counter_spacefree (snd e)) m.

(** [d.get(k)]. *)
Fixpoint lookup {V : Type} (k : string) (d : list (string * V)) : option V :=
  match d with
  | [] => None
  | (k', v) :: d' => if String.eqb k k' then Some v else lookup k d'
  end.

(** The counts that training makes, in the order it makes them: the pairs
    (history, word) at which [model[history][word] += 1] is executed.  The
    three functions follow [train_word], [train_song] and [train_token]
    with the list of these pairs in the place of the model. *)
Definition observe_word (st : list (string * string) * string) (word : string)
  : result (list (string * string) * string) :=
  let (log, history) := st in
  if skipped word then Ok (log, history)
  else
    history' <- slide history word ;;
    Ok (log ++ [(history, word)], history').

Definition observe_song (n : nat) (log : list (string * string)) (item : list string)
  : result (list (string * string)) :=
  '(log', _) <- for_each observe_word item (log, init_history n) ;;
  Ok log'.

Definition observe_token (n : nat) (log : list (string * string)) (item : string)
  : result (list (string * string)) :=
  '(log', _) <- observe_word (log, init_history n) item ;;
  Ok log'.

Definition observations (l : lyrics) (n : nat) : result (list (string * string)) :=
  match l with
  | Songs items => for_each (observe_song n) (map re_split items) []
  | Song s => for_each (observe_token n) (re_split s) []
  end.

(** The model that a list of such counts builds. *)
Definition replay (log : list (string * string)) (m : model) : model :=
  fold_left (fun m p => model_incr (fst p) (snd p) m) log m.

(** The words counted after the history [h], in order. *)
Definition words_after (h : string) (log : list (string * string)) : list string :=
  map snd (filter (fun p => String.eqb h (fst p)) log).

(** [Counter(ws)]: the counter of a sequence of words. *)
Definition counts_of (ws : list string) : counter :=
  fold_left (fun c w => counter_incr w c) ws [].

(** The distinct words of a sequence, in the order of their first
    occurrence. *)
Definition first_seen (ws : list string) : list string :=
  fold_left (fun acc w => if existsb (String.eqb w) acc then acc else acc ++ [w]) ws [].

(** ** Vocabulary of the further properties *)

(** [model[h][w]] read as a number: the count of [w] after [h], 0 when
    either is missing. *)
Definition model_count (m : model) (h w : string) : nat :=
  match lookup h m with
  | Some c => match lookup w c with Some k => k | None => 0 end
  | None => 0
  end.

(** All the tokens of a corpus, song after song. *)
Definition corpus_tokens (l : lyrics) : list string :=
  match l with
  | Song s => re_split s
  | Songs items => flat_map re_split items
  end.

(** Every word counted in the model satisfies [Q]. *)
Definition model_words (Q : string -> Prop) (m : model) : Prop :=
  Forall (fun e => Forall (fun p => Q (fst p)) (snd e)) m.

(** Every word listed in the language model satisfies [Q]. *)
Definition lm_words (Q : string -> Prop) (lm : language_model) : Prop :=
  Forall (fun e => Forall (fun p => Q (fst p)) (snd e)) lm.

(** [s.endswith(suf)]. *)
Fixpoint has_suffix (suf s : string) : bool :=
  String.eqb suf s ||
  match s with
  | EmptyString => false
  | String _ s' => has_suffix suf s'
  end.

(** The last word of the history is the fallback token. *)
Definition tilde_last (h : string) : bool :=
  String.eqb h "~" || has_suffix " ~" h.

(** No key of the model ends with the fallback token as a word. *)
Definition no_tilde_key (lm : language_model) : bool :=
  forallb (fun e => negb (tilde_last (fst e))) lm.

(** The word has no parenthesis. *)
Definition paren_free (w : string) : bool :=
  negb (Str.contains_char "("%char w) && negb (Str.contains_char ")"%char w).

(** The word follows a line break somewhere in the original. *)
Definition follows_newline (original : lyrics) (w : string) : Prop :=
  match original with
  | Song s => Str.contains (nl +++ w) s = true
  | Songs items => exists item, In item items /\ Str.contains (nl +++ w) item = true
  end.

(** What the third pass may leave at a position that held [w]. *)
Definition recovered (original : lyrics) (w w' : string) : Prop :=
  w' = w \/ (w' = nl +++ w /\ follows_newline original w).

(** ** The key of an artist, from [start] *)

(** [c.lower()] for one character, a character being a code point below
    256: the letters A to Z and the capital letters of Latin-1 (all of 192
    to 222 but the multiplication sign 215) move up by 32. *)
Definition lower_char (c : ascii) : ascii :=
  let k := nat_of_ascii c in
  if ((65 <=? k) && (k <=? 90))%nat
     || ((192 <=? k) && (k <=? 222) && negb (k =? 215))%nat
  then ascii_of_nat (k + 32)
  else c.

(** [s.lower()]. *)
Fixpoint lower (s : string) : string :=
  match s with
  | EmptyString => EmptyString
  | String c s' => String (lower_char c) (lower s')
  end.

(** The key under which [start] looks an artist up: the name in lower case,
    and, if it has a space, its pieces between spaces joined by "-". *)
Definition artist_key (artist : string) : string :=
  let artist := lower artist in
  if Str.contains_char Str.space artist
  then Str.join "-" (Str.split_on (Ascii.eqb Str.space) artist)
  else artist.

(** The string with every space replaced by a hyphen. *)
Fixpoint hyphenate (s : string) : string :=
  match s with
  | EmptyString => EmptyString
  | String c s' =>
      String (if Ascii.eqb Str.space c then "-"%char else c) (hyphenate s')
  end.

(** * Properties *)

(** ** Loops *)

Lemma bind_ok : forall (A B : Type) (r : result A) (k : A -> result B) (b : B),
  bind r k = Ok b -> exists a, r = Ok a /\ k a = Ok b.
Proof.
  intros A B [a | e] k b H; simpl in H; [eauto | discriminate].
Qed.

Lemma for_each_app : forall (A S : Type) (body : S -> A -> result S) l1 l2 s,
  for_each body (l1 ++ l2) s = (s' <- for_each body l1 s ;; for_each body l2 s').
Proof.
  induction l1 as [| x l1 IH]; intros l2 s; simpl; [reflexivity |].
  destruct (body s x) as [s1 | e]; simpl; [apply IH | reflexivity].
Qed.

(** The invariant rule: a body that keeps [P] and does not raise on the
    elements of the list makes the whole loop return a state with [P]. *)
Lemma for_each_inv : forall (A S : Type) (body : S -> A -> result S) (P : S -> Prop) l s,
  P s ->
  (forall s x, P s -> In x l -> exists s', body s x = Ok s' /\ P s') ->
  exists s', for_each body l s = Ok s' /\ P s'.
Proof.
  induction l as [| x l IH]; intros s Hs Hbody; simpl.
  - eauto.
  - destruct (Hbody s x Hs (or_introl eq_refl)) as (s1 & E & H1).
    rewrite E; simpl. apply IH; [assumption |].
    intros s2 y H2 Hy. apply Hbody; [assumption | right; assumption].
Qed.

(** The same rule for a body that may raise: a result, if any, has [P]. *)
Lemma for_each_partial : forall (A S : Type) (body : S -> A -> result S) (P : S -> Prop) l s s',
  P s ->
  (forall s x s', P s -> In x l -> body s x = Ok s' -> P s') ->
  for_each body l s = Ok s' -> P s'.
Proof.
  induction l as [| x l IH]; intros s s' Hs Hbody H; simpl in H.
  - inversion H; subst; assumption.
  - apply bind_ok in H. destruct H as (s1 & E & H).
    apply (IH s1 s'); [| | assumption].
    + apply (Hbody s x s1); [assumption | left; reflexivity | assumption].
    + intros s2 y s3 H2 Hy. apply Hbody; [assumption | right; assumption].
Qed.

(** A loop that collects one value per element. *)
Lemma for_each_collect : forall (A B : Type) (body : list B -> A -> result (list B))
    (g : A -> B) l acc,
  (forall acc x, In x l -> body acc x = Ok (acc ++ [g x])) ->
  for_each body l acc = Ok (acc ++ map g l).
Proof.
  induction l as [| x l IH]; intros acc Hg; simpl.
  - rewrite app_nil_r. reflexivity.
  - rewrite (Hg acc x (or_introl eq_refl)); simpl.
    rewrite IH by (intros acc' y Hy; apply Hg; right; assumption).
    rewrite <- app_assoc. reflexivity.
Qed.

(** ** Strings *)

Module StrFacts.
Import Str.

Lemma append_nil_r : forall s, s +++ "" = s.
Proof. induction s as [| c s IH]; simpl; [| rewrite IH]; reflexivity. Qed.

Lemma append_assoc : forall a b c, (a +++ b) +++ c = a +++ b +++ c.
Proof. induction a as [| x a IH]; intros; simpl; [| rewrite IH]; reflexivity. Qed.

Lemma is_empty_true : forall s, is_empty s = true <-> s = "".
Proof. destruct s; simpl; split; congruence. Qed.

Lemma is_empty_append : forall a b, is_empty (a +++ b) = is_empty a && is_empty b.
Proof. destruct a; reflexivity. Qed.

Lemma contains_char_append : forall c a b,
  contains_char c (a +++ b) = contains_char c a || contains_char c b.
Proof.
  induction a as [| x a IH]; intros b; simpl; [reflexivity |].
  rewrite IH, orb_assoc. reflexivity.
Qed.

Lemma contains_char_join : forall c sep l,
  contains_char c (join sep l) = true ->
  contains_char c sep = true \/ exists w, In w l /\ contains_char c w = true.
Proof.
  induction l as [| w l IH]; simpl; intros H; [discriminate |].
  destruct l as [| w' l'].
  - right. exists w. auto.
  - rewrite !contains_char_append in H.
    apply orb_true_iff in H. destruct H as [H | H].
    + right. exists w. auto.
    + apply orb_true_iff in H. destruct H as [H | H]; [left; assumption |].
      destruct (IH H) as [H' | (v & Hv & Hc)]; [left; assumption |].
      right. exists v. auto.
Qed.

Lemma split_on_nonnil : forall sep s, split_on sep s <> [].
Proof.
  intros sep s. destruct s as [| c s]; simpl; [discriminate |].
  destruct (sep c); [discriminate |].
  destruct (split_on sep s); discriminate.
Qed.

(** A piece of a split only has characters of the string that was split. *)
Lemma split_on_chars : forall sep c s w,
  In w (split_on sep s) -> contains_char c w = true -> contains_char c s = true.
Proof.
  induction s as [| d s IH]; simpl; intros w Hin Hc.
  - destruct Hin as [<- | []]. discriminate.
  - destruct (sep d).
    + destruct Hin as [<- | Hin]; [discriminate |].
      rewrite (IH w Hin Hc). apply orb_true_r.
    + destruct (split_on sep s) as [| v vs] eqn:E.
      * destruct Hin as [<- | []]. simpl in Hc. rewrite orb_false_r in Hc.
        rewrite Hc. reflexivity.
      * destruct Hin as [<- | Hin].
        -- simpl in Hc. apply orb_true_iff in Hc. destruct Hc as [Hc | Hc].
           ++ rewrite Hc. reflexivity.
           ++ rewrite (IH v (or_introl eq_refl) Hc). apply orb_true_r.
        -- rewrite (IH w (or_intror Hin) Hc). apply orb_true_r.
Qed.

(** No piece of a split has a separator in it. *)
Lemma split_on_no_sep : forall sep s w c,
  In w (split_on sep s) -> sep c = true -> contains_char c w = false.
Proof.
  induction s as [| d s IH]; simpl; intros w c Hin Hsep.
  - destruct Hin as [<- | []]. reflexivity.
  - destruct (sep d) eqn:Ed.
    + destruct Hin as [<- | Hin]; [reflexivity | eauto].
    + destruct (split_on sep s) as [| v vs] eqn:E.
      * destruct Hin as [<- | []]. simpl. rewrite orb_false_r.
        destruct (Ascii.eqb_spec c d); [congruence | reflexivity].
      * destruct Hin as [<- | Hin].
        -- simpl. rewrite (IH v c (or_introl eq_refl) Hsep), orb_false_r.
           destruct (Ascii.eqb_spec c d); [congruence | reflexivity].
        -- apply IH; [right |]; assumption.
Qed.

End StrFacts.

(** ** Dictionaries *)

Section Upsert.
Variable V : Type.
Variables (f : V -> V) (default : V).

Lemma upsert_nonnil : forall k (d : list (string * V)), upsert k f default d <> [].
Proof.
  intros k [| [k' v] d]; simpl; [discriminate |].
  destruct (String.eqb k k'); discriminate.
Qed.

(** A key that is present keeps its place, a new one goes to the end. *)
Lemma upsert_keys : forall k (d : list (string * V)),
  map fst (upsert k f default d) =
  if existsb (String.eqb k) (map fst d) then map fst d else map fst d ++ [k].
Proof.
  induction d as [| [k' v] d IH]; simpl; [reflexivity |].
  destruct (String.eqb k k') eqn:E; simpl; [reflexivity |].
  rewrite IH. destruct (existsb (String.eqb k) (map fst d)); reflexivity.
Qed.

Lemma upsert_NoDup : forall k (d : list (string * V)),
  NoDup (map fst d) -> NoDup (map fst (upsert k f default d)).
Proof.
  intros k d H. rewrite upsert_keys.
  destruct (existsb (String.eqb k) (map fst d)) eqn:E; [assumption |].
  apply NoDup_app; [assumption | repeat constructor; intros [] | ].
  intros x Hx [Hk | []]. subst x.
  assert (existsb (String.eqb k) (map fst d) = true); [| congruence].
  apply existsb_exists. exists k. split; [assumption | apply String.eqb_refl].
Qed.

Lemma upsert_Forall : forall (P : string -> V -> Prop) k (d : list (string * V)),
  Forall (fun e => P (fst e) (snd e)) d ->
  P k (f default) ->
  (forall v, P k v -> P k (f v)) ->
  Forall (fun e => P (fst e) (snd e)) (upsert k f default d).
Proof.
  intros P k d Hd Hnew Hupd.
  induction Hd as [| [k' v] d Hkv Hd IH]; simpl.
  - repeat constructor. assumption.
  - simpl in Hkv.
    destruct (String.eqb_spec k k') as [-> | Hne]; constructor; simpl; auto.
Qed.

End Upsert.

(** ** The counts kept during training *)

Lemma skipped_false : forall w,
  skipped w = false <->
  Str.contains_char "["%char w = false /\ Str.contains_char "]"%char w = false
  /\ Str.is_empty w = false.
Proof.
  intros w. unfold skipped. rewrite !orb_false_iff. tauto.
Qed.

Lemma counter_incr_ok : forall w c,
  skipped w = false -> (c = [] \/ counter_ok c) -> counter_ok (counter_incr w c).
Proof.
  intros w c Hw Hc. unfold counter_incr.
  assert (Hnd : NoDup (map fst c)).
  { destruct Hc as [-> | (_ & H & _)]; [constructor | assumption]. }
  assert (Hall : Forall (fun e => skipped (fst e) = false /\ 1 <= snd e) c).
  { destruct Hc as [-> | (_ & _ & H)]; [constructor | assumption]. }
  split; [apply upsert_nonnil |].
  split; [apply upsert_NoDup; assumption |].
  apply upsert_Forall with (P := fun k v => skipped k = false /\ 1 <= v);
    [assumption | |].
  - split; [assumption | simpl; lia].
  - intros v [H1 H2]. split; [assumption | lia].
Qed.

Lemma model_incr_ok : forall h w m,
  skipped h = false -> skipped w = false -> model_ok m ->
  model_ok (model_incr h w m).
Proof.
  intros h w m Hh Hw [Hnd Hall]. unfold model_incr. split.
  - apply upsert_NoDup. assumption.
  - apply upsert_Forall with (P := fun k c => skipped k = false /\ counter_ok c);
      [assumption | |].
    + split; [assumption | apply counter_incr_ok; auto].
    + intros c [H1 H2]. split; [assumption | apply counter_incr_ok; auto].
Qed.

(** ** The history during training *)

Lemma last_char_ok : forall s, s <> "" -> exists c, Str.last_char s = Ok c.
Proof.
  induction s as [| c s IH]; intros H; [congruence |].
  destruct s as [| d s']; simpl; [eauto |].
  apply IH. discriminate.
Qed.

Lemma contains_char_repeat_str : forall c s k,
  Str.contains_char c (Str.repeat_str s k) = true -> Str.contains_char c s = true.
Proof.
  induction k as [| k IH]; simpl; intros H; [discriminate |].
  rewrite StrFacts.contains_char_append in H.
  apply orb_true_iff in H. destruct H; auto.
Qed.

Lemma init_history_not_skipped : forall n, 2 <= n -> skipped (init_history n) = false.
Proof.
  intros n Hn. unfold init_history.
  destruct (n - 1) as [| k] eqn:E; [lia |].
  apply skipped_false. repeat split.
  - destruct (Str.contains_char "[" (Str.repeat_str "~ " (S k))) eqn:C; [| reflexivity].
    apply contains_char_repeat_str in C. discriminate.
  - destruct (Str.contains_char "]" (Str.repeat_str "~ " (S k))) eqn:C; [| reflexivity].
    apply contains_char_repeat_str in C. discriminate.
Qed.

(** What [slide] returns, whichever branch is taken. *)
Lemma slide_cases : forall h w,
  h <> "" ->
  exists h', slide h w = Ok h' /\
    (h' = Str.join " " (tl (Str.split_on (Ascii.eqb Str.space) h)) +++ w \/
     h' = Str.join " " (tl (Str.split_on (Ascii.eqb Str.space) h)) +++ " " +++ w).
Proof.
  intros h w Hh. unfold slide.
  destruct (last_char_ok h Hh) as (c & ->); simpl.
  destruct (Ascii.eqb c Str.space); eauto.
Qed.

Lemma tl_In : forall (A : Type) (x : A) l, In x (tl l) -> In x l.
Proof. intros A x [| y l]; simpl; auto. Qed.

Lemma slide_chars : forall c h,
  Str.contains_char c (Str.join " " (tl (Str.split_on (Ascii.eqb Str.space) h))) = true ->
  c = Str.space \/ Str.contains_char c h = true.
Proof.
  intros c h H. apply StrFacts.contains_char_join in H.
  destruct H as [H | (w & Hin & Hc)].
  - left. simpl in H. rewrite orb_false_r in H. apply Ascii.eqb_eq. assumption.
  - right. apply tl_In in Hin. eapply StrFacts.split_on_chars; eassumption.
Qed.

Lemma slide_not_skipped : forall h w,
  skipped h = false -> skipped w = false ->
  exists h', slide h w = Ok h' /\ skipped h' = false.
Proof.
  intros h w Hh Hw.
  apply skipped_false in Hh. destruct Hh as (Hh1 & Hh2 & Hh3).
  apply skipped_false in Hw. destruct Hw as (Hw1 & Hw2 & Hw3).
  assert (Hne : h <> "") by (intros ->; discriminate).
  destruct (slide_cases h w Hne) as (h' & E & Hh').
  exists h'. split; [assumption |].
  assert (Hj : forall c, c <> Str.space -> Str.contains_char c h = false ->
            Str.contains_char c
              (Str.join " " (tl (Str.split_on (Ascii.eqb Str.space) h))) = false).
  { intros c Hc Hch.
    destruct (Str.contains_char c (Str.join " " (tl (Str.split_on (Ascii.eqb Str.space) h))))
      eqn:C; [| reflexivity].
    apply slide_chars in C. destruct C; congruence. }
  apply skipped_false.
  destruct Hh' as [-> | ->];
    rewrite ?StrFacts.contains_char_append, ?StrFacts.is_empty_append,
            ?Hj, ?Hw1, ?Hw2, ?Hw3, ?andb_false_r by (assumption || discriminate);
    auto.
Qed.

(** ** Training never raises for [n >= 2] *)

Lemma train_word_ok : forall st word,
  train_state_ok st -> exists st', train_word st word = Ok st' /\ train_state_ok st'.
Proof.
  intros [m h] word [Hm Hh]. simpl in Hm, Hh. unfold train_word.
  destruct (skipped word) eqn:Hw.
  - exists (m, h). split; [reflexivity | split; assumption].
  - destruct (slide_not_skipped h word Hh Hw) as (h' & E & Hh').
    rewrite E; simpl. eexists; split; [reflexivity |].
    split; simpl; [apply model_incr_ok |]; assumption.
Qed.

Lemma train_song_ok : forall n m item,
  2 <= n -> model_ok m -> exists m', train_song n m item = Ok m' /\ model_ok m'.
Proof.
  intros n m item Hn Hm. unfold train_song.
  destruct (for_each_inv _ _ train_word train_state_ok item (m, init_history n))
    as ([m' h'] & E & Hm' & _).
  - split; [assumption | apply init_history_not_skipped; assumption].
  - intros st w Hst _. apply train_word_ok. assumption.
  - rewrite E; simpl. eauto.
Qed.

Lemma train_token_ok : forall n m item,
  2 <= n -> model_ok m -> exists m', train_token n m item = Ok m' /\ model_ok m'.
Proof.
  intros n m item Hn Hm. unfold train_token.
  destruct (train_word_ok (m, init_history n) item) as ([m' h'] & E & Hm' & _).
  - split; [assumption | apply init_history_not_skipped; assumption].
  - rewrite E; simpl. eauto.
Qed.

Lemma model_ok_nil : model_ok [].
Proof. split; constructor. Qed.

Lemma train_counts_ok : forall l n,
  2 <= n -> exists m, train_counts l n = Ok m /\ model_ok m.
Proof.
  intros [s | items] n Hn; simpl.
  - apply for_each_inv; [apply model_ok_nil |].
    intros m w Hm _. apply train_token_ok; assumption.
  - apply for_each_inv; [apply model_ok_nil |].
    intros m w Hm _. apply train_song_ok; assumption.
Qed.

(** ** [normalize] *)

Lemma insert_desc_perm : forall x l, Permutation (insert_desc x l) (x :: l).
Proof.
  induction l as [| y l IH]; simpl; [reflexivity |].
  destruct (snd x <? snd y)%nat; [| reflexivity].
  rewrite IH. apply perm_swap.
Qed.

Lemma most_common_perm : forall c, Permutation (most_common c) c.
Proof.
  induction c as [| x c IH]; simpl; [reflexivity |].
  rewrite insert_desc_perm. constructor. assumption.
Qed.

Lemma insert_desc_descending : forall x l, descending l -> descending (insert_desc x l).
Proof.
  unfold descending. induction l as [| y l IH]; simpl; intros H.
  - repeat constructor.
  - apply StronglySorted_inv in H. destruct H as [Hl Hy].
    destruct (Nat.ltb_spec (snd x) (snd y)) as [Hlt | Hge].
    + constructor; [apply IH; assumption |].
      apply (Permutation_Forall (Permutation_sym (insert_desc_perm x l))).
      constructor; [lia | assumption].
    + constructor; [constructor; assumption |].
      constructor; [assumption |].
      apply Forall_impl with (P := fun z => snd z <= snd y); [| assumption].
      intros z Hz. lia.
Qed.

Lemma most_common_descending : forall c, descending (most_common c).
Proof.
  induction c as [| x c IH]; simpl; [constructor |].
  apply insert_desc_descending. assumption.
Qed.

Lemma insert_desc_filter : forall k x l,
  filter (fun e => (snd e =? k)%nat) (insert_desc x l) =
  filter (fun e => (snd e =? k)%nat) (x :: l).
Proof.
  induction l as [| y l IH]; simpl; [reflexivity |].
  destruct (Nat.ltb_spec (snd x) (snd y)) as [Hlt | Hge]; [| reflexivity].
  simpl. rewrite IH. simpl.
  destruct (Nat.eqb_spec (snd x) k), (Nat.eqb_spec (snd y) k);
    try reflexivity; lia.
Qed.

Lemma most_common_stable : forall c, ties_in_order_of c (most_common c).
Proof.
  intros c k. induction c as [| x c IH]; simpl; [reflexivity |].
  rewrite insert_desc_filter. simpl. rewrite IH. reflexivity.
Qed.

Lemma total_perm : forall a b, Permutation a b -> total a = total b.
Proof.
  induction 1; simpl; try lia.
Qed.

Lemma counter_ok_total : forall c, counter_ok c -> 1 <= total c.
Proof.
  intros [| [w k] c] (Hne & _ & Hall); [congruence |].
  inversion Hall as [| ? ? [_ Hk] _]; subst. simpl in *. lia.
Qed.

Lemma normalize_eq : forall c, total c <> 0 -> normalize c = Ok (distribution c).
Proof.
  intros c Hc. unfold normalize, distribution.
  apply (for_each_collect _ _ _
           (fun e => (fst e, Qred (inject_Z (Z.of_nat (snd e)) / inject_Z (Z.of_nat (total c)))))
           (most_common c) []).
  intros acc x _. unfold true_div.
  destruct (Nat.eqb_spec (total c) 0) as [E | _]; [contradiction | reflexivity].
Qed.

Lemma normalize_zero : forall c, c <> [] -> total c = 0 -> normalize c = Raise ZeroDivisionError.
Proof.
  intros c Hc Ht. unfold normalize. rewrite Ht.
  destruct (most_common c) as [| x s] eqn:E; [| reflexivity].
  exfalso. apply Hc. apply Permutation_nil. rewrite <- E. apply most_common_perm.
Qed.

Lemma sumQ_scaled : forall (t : Q) (s : counter),
  (sumQ (map (fun e => Qred (inject_Z (Z.of_nat (snd e)) / t)) s)
   == inject_Z (Z.of_nat (total s)) / t)%Q.
Proof.
  intros t. induction s as [| x s IH].
  - simpl. unfold Qdiv. ring.
  - change (Qred (inject_Z (Z.of_nat (snd x)) / t)
            + sumQ (map (fun e => Qred (inject_Z (Z.of_nat (snd e)) / t)) s)
            == inject_Z (Z.of_nat (snd x + total s)) / t)%Q.
    rewrite IH, Qred_correct, Nat2Z.inj_add, inject_Z_plus.
    unfold Qdiv. ring.
Qed.

Lemma distribution_sum : forall c, total c <> 0 -> (sumQ (map snd (distribution c)) == 1)%Q.
Proof.
  intros c Hc. unfold distribution. rewrite map_map. simpl.
  rewrite (sumQ_scaled (inject_Z (Z.of_nat (total c))) (most_common c)).
  rewrite (total_perm _ _ (most_common_perm c)).
  unfold Qdiv. apply Qmult_inv_r.
  unfold Qeq; simpl. lia.
Qed.

Lemma distribution_frequencies : forall c, frequencies_of c (most_common c) (distribution c).
Proof.
  intros c. unfold frequencies_of, distribution.
  induction (most_common c) as [| x s IH]; constructor; [| assumption].
  split; [reflexivity | apply Qred_correct].
Qed.

Lemma normalize_all_eq : forall m,
  Forall (fun e => total (snd e) <> 0) m ->
  normalize_all m = Ok (map (fun e => (fst e, distribution (snd e))) m).
Proof.
  intros m Hm. unfold normalize_all.
  apply (for_each_collect _ _ _ (fun e => (fst e, distribution (snd e))) m []).
  intros acc x Hx. rewrite Forall_forall in Hm.
  rewrite (normalize_eq (snd x) (Hm x Hx)). reflexivity.
Qed.

Lemma model_ok_totals : forall m, model_ok m -> Forall (fun e => total (snd e) <> 0) m.
Proof.
  intros m [_ Hm]. apply Forall_impl with (2 := Hm).
  intros e [_ Hc]. apply counter_ok_total in Hc. lia.
Qed.

Lemma train_lm_eq : forall l n,
  2 <= n ->
  exists m, train_counts l n = Ok m /\ model_ok m /\
            train_lm l n = Ok (map (fun e => (fst e, distribution (snd e))) m).
Proof.
  intros l n Hn. destruct (train_counts_ok l n Hn) as (m & E & Hm).
  exists m. split; [assumption |]. split; [assumption |].
  unfold train_lm. rewrite E; simpl.
  apply normalize_all_eq, model_ok_totals, Hm.
Qed.

(** ** Skipped tokens *)

Lemma train_word_skipped : forall m history token,
  skipped token = true -> train_word (m, history) token = Ok (m, history).
Proof.
  intros m history token H. unfold train_word. rewrite H. reflexivity.
Qed.

Lemma train_token_skipped : forall n m token,
  skipped token = true -> train_token n m token = Ok m.
Proof.
  intros n m token H. unfold train_token. rewrite train_word_skipped by assumption.
  reflexivity.
Qed.

(** A loop is not changed by dropping the elements on which its body does
    nothing. *)
Lemma for_each_filter : forall (A S : Type) (body : S -> A -> result S) (keep : A -> bool) l s,
  (forall s x, keep x = false -> body s x = Ok s) ->
  for_each body l s = for_each body (filter keep l) s.
Proof.
  induction l as [| x l IH]; intros s H; simpl; [reflexivity |].
  destruct (keep x) eqn:K; simpl.
  - destruct (body s x); simpl; [apply IH; assumption | reflexivity].
  - rewrite (H s x K); simpl. apply IH. assumption.
Qed.

Lemma distribution_words : forall c w q,
  In (w, q) (distribution c) -> In w (map fst c).
Proof.
  intros c w q H. unfold distribution in H.
  apply in_map_iff in H. destruct H as (e & E & He). inversion E; subst.
  apply in_map. apply (Permutation_in _ (most_common_perm c)). assumption.
Qed.

(** C8. For n >= 2, a token that is empty or has a bracket in it leaves the
    model and the history window as they were, in the loop over the words of
    a song and in the loop over the tokens of a single string, so that
    training on a token list equals training on it without such tokens; and
    in the trained model such a token is neither a key nor a word of any
    value list. *)
Theorem skipped_tokens_never_trained :
  forall (l : lyrics) (n : nat) (m : model) (history token : string)
         (tokens : list string),
    2 <= n ->
    skipped token = true ->
    train_word (m, history) token = Ok (m, history) /\
    train_token n m token = Ok m /\
    for_each train_word tokens (m, history) =
      for_each train_word (filter (fun w => negb (skipped w)) tokens) (m, history) /\
    for_each (train_token n) tokens m =
      for_each (train_token n) (filter (fun w => negb (skipped w)) tokens) m /\
    exists lm, train_lm l n = Ok lm /\
      ~ In token (map fst lm) /\
      forall h dist, In (h, dist) lm -> ~ In token (map fst dist).
Proof.
  intros l n m history token tokens Hn Hskip.
  split; [apply train_word_skipped; assumption |].
  split; [apply train_token_skipped; assumption |].
  split.
  { apply for_each_filter. intros [m0 h0] w Hw.
    apply train_word_skipped. apply negb_false_iff. assumption. }
  split.
  { apply for_each_filter. intros m0 w Hw.
    apply train_token_skipped. apply negb_false_iff. assumption. }
  destruct (train_lm_eq l n Hn) as (raw & _ & [_ Hraw] & Elm).
  eexists. split; [exact Elm |].
  rewrite Forall_forall in Hraw. split.
  - rewrite map_map. simpl. intros Hin.
    apply in_map_iff in Hin. destruct Hin as (e & <- & He).
    destruct (Hraw e He) as [Hk _]. simpl in Hskip. congruence.
  - intros h dist Hin Hw.
    apply in_map_iff in Hin. destruct Hin as (e & E & He). inversion E; subst.
    destruct (Hraw e He) as [_ (_ & _ & Hc)].
    apply in_map_iff in Hw. destruct Hw as ([w q] & <- & Hwq).
    apply distribution_words in Hwq.
    apply in_map_iff in Hwq. destruct Hwq as (e' & Ew & He').
    rewrite Forall_forall in Hc. destruct (Hc e' He') as [Hs _].
    simpl in Ew, Hskip. congruence.
Qed.

(** The theorem at the token "[Chorus]" of a two-song corpus. *)
Lemma skipped_tokens_never_trained_witness :
  train_word ([], "~ ~ ") "[Chorus]" = Ok ([], "~ ~ ") /\
  train_token 3 [] "[Chorus]" = Ok [] /\
  for_each train_word ["[Chorus]"; "la"] ([], "~ ~ ") =
    for_each train_word (filter (fun w => negb (skipped w)) ["[Chorus]"; "la"]) ([], "~ ~ ") /\
  for_each (train_token 3) ["[Chorus]"; "la"] [] =
    for_each (train_token 3) (filter (fun w => negb (skipped w)) ["[Chorus]"; "la"]) [] /\
  exists lm, train_lm (Songs ["[Chorus]  la la"; "la"]) 3 = Ok lm /\
    ~ In "[Chorus]" (map fst lm) /\
    forall h dist, In (h, dist) lm -> ~ In "[Chorus]" (map fst dist).
Proof.
  apply (skipped_tokens_never_trained (Songs ["[Chorus]  la la"; "la"]) 3 []
           "~ ~ " "[Chorus]" ["[Chorus]"; "la"]).
  - lia.
  - reflexivity.
Defined.


(** ** Training on one string *)

(** With a single string the loop runs over the tokens themselves and sets
    the history anew before each of them: every count goes under the
    initial history. *)
Lemma train_token_key : forall n m item m',
  train_token n m item = Ok m' ->
  m' = m \/ m' = model_incr (init_history n) item m.
Proof.
  intros n m item m' H. unfold train_token, train_word in H.
  destruct (skipped item); simpl in H.
  - left. congruence.
  - destruct (slide (init_history n) item); simpl in H; [| discriminate].
    right. congruence.
Qed.

Lemma single_string_keys : forall s n m h,
  train_counts (Song s) n = Ok m -> In h (map fst m) -> h = init_history n.
Proof.
  intros s n m h H. simpl in H. revert h.
  apply (for_each_partial _ _ (train_token n)
           (fun m => forall h, In h (map fst m) -> h = init_history n)
           (re_split s) [] m); [intros h [] | | assumption].
  intros m0 w m1 Hm0 _ E h Hin.
  apply train_token_key in E. destruct E as [-> | ->]; [auto |].
  unfold model_incr in Hin. rewrite upsert_keys in Hin.
  destruct (existsb (String.eqb (init_history n)) (map fst m0)); [auto |].
  apply in_app_or in Hin. destruct Hin as [Hin | [<- | []]]; auto.
Qed.

(** C1. Training on the single string "I love cats I love dogs" with n = 2
    returns one key, the initial history "~ " (with its trailing space),
    under which all six tokens are counted; there is no entry for "~", "I",
    "love" or "cats".  Given as a list of one song, the same text gives the
    keys "~ ", "I", " love", "love cats", "cats I" and "I love". *)
Theorem train_lm_scenario_one_string :
  train_lm (Song "I love cats I love dogs") 2 =
    Ok [("~ ", [("I", 1 # 3); ("love", 1 # 3); ("cats", 1 # 6); ("dogs", 1 # 6)])]%Q /\
  train_lm (Songs ["I love cats I love dogs"]) 2 =
    Ok [("~ ", [("I", 1%Q)]); ("I", [("love", 1%Q)]); (" love", [("cats", 1%Q)]);
        ("love cats", [("I", 1%Q)]); ("cats I", [("love", 1%Q)]);
        ("I love", [("dogs", 1%Q)])].
Proof.
  split; vm_compute; reflexivity.
Qed.

(** ** Training with n = 1 *)

Lemma train_word_empty_history : forall m w,
  is_token w = true -> train_word (m, "") w = Raise IndexError.
Proof.
  intros m w H. unfold is_token in H. apply negb_true_iff in H.
  unfold train_word. rewrite H. reflexivity.
Qed.

Lemma train_words_empty_history : forall item m,
  for_each train_word item (m, "") =
  if existsb is_token item then Raise IndexError else Ok (m, "").
Proof.
  induction item as [| w item IH]; intros m; cbn [for_each existsb]; [reflexivity |].
  destruct (is_token w) eqn:E; cbn [orb].
  - rewrite train_word_empty_history by assumption. reflexivity.
  - rewrite train_word_skipped by (apply negb_false_iff; assumption).
    cbn [bind]. apply IH.
Qed.

Lemma train_token_unigram : forall m w,
  is_token w = true -> train_token 1 m w = Raise IndexError.
Proof.
  intros m w H. unfold train_token. change (init_history 1) with "".
  rewrite train_word_empty_history by assumption. reflexivity.
Qed.

Lemma train_tokens_unigram : forall tokens m,
  existsb is_token tokens = true ->
  for_each (train_token 1) tokens m = Raise IndexError.
Proof.
  induction tokens as [| w tokens IH]; intros m H; simpl in H; [discriminate |].
  cbn [for_each]. destruct (is_token w) eqn:E.
  - rewrite train_token_unigram by assumption. reflexivity.
  - rewrite train_token_skipped by (apply negb_false_iff; assumption).
    simpl. apply IH. assumption.
Qed.

Lemma train_songs_unigram : forall items m,
  existsb (fun item => existsb is_token item) items = true ->
  for_each (train_song 1) items m = Raise IndexError.
Proof.
  induction items as [| item items IH]; intros m H; simpl in H; [discriminate |].
  cbn [for_each]. unfold train_song at 1. change (init_history 1) with "".
  rewrite train_words_empty_history.
  destruct (existsb is_token item); simpl; [reflexivity |].
  apply IH. assumption.
Qed.

Lemma existsb_map_comp : forall (A B : Type) (f : B -> bool) (g : A -> B) l,
  existsb f (map g l) = existsb (fun x => f (g x)) l.
Proof.
  induction l as [| x l IH]; simpl; [| rewrite IH]; reflexivity.
Qed.

(** C9. With n = 1 the history is the empty string, and taking its last
    character after the first counted token raises: for every corpus with a
    token that is not skipped, training ends in IndexError and returns no
    model. *)
Theorem train_lm_unigram_raises :
  forall l : lyrics, has_token l = true -> train_lm l 1 = Raise IndexError.
Proof.
  intros [s | items] H; unfold train_lm; simpl in *.
  - rewrite train_tokens_unigram by assumption. reflexivity.
  - rewrite train_songs_unigram; [reflexivity |].
    rewrite existsb_map_comp. assumption.
Qed.

Lemma train_lm_unigram_raises_witness :
  train_lm (Song "la") 1 = Raise IndexError.
Proof.
  apply (train_lm_unigram_raises (Song "la")). reflexivity.
Defined.

(** ** Sampling *)

Lemma generate_word_fallback : forall rng lm history drawn,
  lm_get lm history = None -> generate_word rng lm history drawn = Ok ("~", drawn).
Proof.
  intros rng lm history drawn H. unfold generate_word. rewrite H. reflexivity.
Qed.

Lemma lm_get_In : forall lm history pairs,
  lm_get lm history = Some pairs -> In (history, pairs) lm.
Proof.
  induction lm as [| [h l] lm IH]; simpl; intros history pairs H; [discriminate |].
  destruct (String.eqb_spec history h) as [-> | _].
  - left. congruence.
  - right. apply IH. assumption.
Qed.

Lemma searchsorted_ok : forall a p u acc,
  length a = length p ->
  (u < acc + sumQ p)%Q ->
  (acc <= u)%Q \/ a <> [] ->
  exists w, searchsorted u acc a p = Ok w /\ In w a.
Proof.
  induction a as [| w a IH]; intros [| q p] u acc Hlen Hu Hacc;
    try discriminate.
  - exfalso. destruct Hacc as [Hacc | Hacc]; [| congruence].
    simpl in Hu. rewrite Qplus_0_r in Hu.
    apply (Qlt_irrefl u). eapply Qlt_le_trans; eassumption.
  - cbn [searchsorted]. destruct (Qlt_le_dec u (acc + q)) as [Hlt | Hge].
    + exists w. split; [reflexivity | left; reflexivity].
    + destruct (IH p u (acc + q)%Q) as (v & E & Hv).
      * simpl in Hlen. congruence.
      * change (sumQ (q :: p)) with (q + sumQ p)%Q in Hu.
        rewrite Qplus_assoc in Hu. assumption.
      * left. assumption.
      * exists v. split; [assumption | right; assumption].
Qed.

Lemma np_random_choice_ok : forall u pairs,
  valid_dist pairs = true ->
  (u < 1)%Q ->
  exists w, np_random_choice u (map fst pairs) (map snd pairs) = Ok w
            /\ In w (map fst pairs).
Proof.
  intros u pairs Hv Hu. unfold valid_dist in Hv.
  apply andb_true_iff in Hv. destruct Hv as [Hv Hsum].
  apply andb_true_iff in Hv. destruct Hv as [Hlen Hneg].
  unfold np_random_choice. rewrite !length_map.
  apply negb_true_iff in Hlen. rewrite Hlen.
  rewrite Nat.eqb_refl. cbn [negb].
  apply negb_true_iff in Hneg. rewrite Hneg. rewrite Hsum. cbn [negb].
  apply Qeq_bool_iff in Hsum.
  apply searchsorted_ok.
  - rewrite !length_map. reflexivity.
  - rewrite Hsum, Qplus_0_l. assumption.
  - right. destruct pairs; [discriminate | discriminate].
Qed.

Lemma valid_lm_get : forall lm history pairs,
  valid_lm lm = true -> lm_get lm history = Some pairs ->
  valid_dist pairs = true /\
  forall w, In w (map fst pairs) -> w <> "".
Proof.
  intros lm history pairs Hv Hget. apply lm_get_In in Hget.
  unfold valid_lm in Hv. rewrite forallb_forall in Hv.
  specialize (Hv _ Hget). simpl in Hv.
  apply andb_true_iff in Hv. destruct Hv as [Hd Hw].
  split; [assumption |].
  intros w Hin. apply in_map_iff in Hin. destruct Hin as (p & <- & Hp).
  rewrite forallb_forall in Hw. specialize (Hw p Hp).
  intros E. rewrite E in Hw. discriminate.
Qed.

(** On a valid model a draw below 1 always gives a word, and the word is
    not empty. *)
Lemma generate_word_ok : forall rng lm history drawn,
  valid_lm lm = true ->
  (forall i, rng i < 1)%Q ->
  exists w drawn', generate_word rng lm history drawn = Ok (w, drawn') /\ w <> "".
Proof.
  intros rng lm history drawn Hv Hrng. unfold generate_word.
  destruct (lm_get lm history) as [pairs |] eqn:G.
  - destruct (valid_lm_get lm history pairs Hv G) as [Hd Hw].
    destruct (np_random_choice_ok (rng drawn) pairs Hd (Hrng drawn)) as (w & E & Hin).
    assert (U : unzip pairs = Some (map fst pairs, map snd pairs)).
    { destruct pairs; [discriminate | reflexivity]. }
    rewrite U, E. simpl. exists w, (S drawn). split; [reflexivity | auto].
  - exists "~", drawn. split; [reflexivity | discriminate].
Qed.

Lemma slide_nonempty : forall h w,
  h <> "" -> w <> "" -> exists h', slide h w = Ok h' /\ h' <> "".
Proof.
  intros h w Hh Hw. destruct (slide_cases h w Hh) as (h' & E & Hh').
  exists h'. split; [assumption |].
  assert (Hwe : Str.is_empty w = false) by (destruct w; [congruence | reflexivity]).
  intros Z. apply StrFacts.is_empty_true in Z.
  destruct Hh' as [-> | ->];
    rewrite !StrFacts.is_empty_append, Hwe, ?andb_false_r in Z; discriminate.
Qed.

(** A loop over [range]: an invariant indexed by the number of rounds. *)
Lemma for_each_range : forall (S : Type) (body : S -> nat -> result S)
    (P : nat -> S -> Prop) k start s,
  P 0 s ->
  (forall i j s, P i s -> exists s', body s j = Ok s' /\ P (Datatypes.S i) s') ->
  exists s', for_each body (seq start k) s = Ok s' /\ P k s'.
Proof.
  intros S body P k. revert P.
  induction k as [| k IH]; intros P start s H0 Hstep; simpl.
  - eauto.
  - destruct (Hstep 0 start s H0) as (s1 & E & H1).
    rewrite E; simpl.
    apply (IH (fun i => P (Datatypes.S i))); [assumption |].
    intros i j s2 H2. apply Hstep. assumption.
Qed.

Lemma init_history_nonempty : forall n, 2 <= n -> init_history n <> "".
Proof.
  intros n Hn. unfold init_history.
  destruct (n - 1) as [| k] eqn:E; [lia | discriminate].
Qed.

(** The generation loop on a valid model: it ends, and has appended one
    word per round. *)
Lemma gen_loop_ok : forall rng lm n k,
  2 <= n -> valid_lm lm = true -> (forall i, rng i < 1)%Q ->
  exists st, gen_loop rng lm n k = Ok st /\
             gs_history st <> "" /\ length (gs_text st) = k.
Proof.
  intros rng lm n k Hn Hv Hrng. unfold gen_loop.
  apply (for_each_range _ (gen_step rng lm)
           (fun i st => gs_history st <> "" /\ length (gs_text st) = i)).
  - split; [apply init_history_nonempty; assumption | reflexivity].
  - intros i j [h text d] [Hh Ht]. simpl in Hh, Ht. unfold gen_step. simpl.
    destruct (generate_word_ok rng lm h d Hv Hrng) as (w & d' & E & Hw).
    rewrite E; simpl.
    destruct (slide_nonempty h w Hh Hw) as (h' & E' & Hh').
    rewrite E'; simpl. eexists; split; [reflexivity |].
    simpl. split; [assumption |]. rewrite length_app. simpl. lia.
Qed.

(** ** Updating the word buffer in place *)

Lemma get_item_app : forall done w rest,
  get_item (done ++ w :: rest) (length done) = Ok w.
Proof.
  intros done w rest. unfold get_item.
  rewrite nth_error_app2 by lia. rewrite Nat.sub_diag. reflexivity.
Qed.

Lemma set_item_app : forall done w rest x,
  set_item (done ++ w :: rest) (length done) x = Ok (done ++ x :: rest).
Proof.
  induction done as [| y done IH]; intros w rest x; simpl; [reflexivity |].
  rewrite IH. reflexivity.
Qed.

Lemma get_item_ok : forall text i,
  i < length text -> exists w, get_item text i = Ok w /\ In w text.
Proof.
  intros text i H. unfold get_item.
  destruct (nth_error text i) as [w |] eqn:E.
  - exists w. split; [reflexivity | eapply nth_error_In; eassumption].
  - apply nth_error_None in E. lia.
Qed.

Lemma set_item_length : forall text i x text',
  set_item text i x = Ok text' -> length text' = length text.
Proof.
  induction text as [| w text IH]; intros i x text' H; simpl in H; [discriminate |].
  destruct i as [| i].
  - inversion H; subst. reflexivity.
  - apply bind_ok in H. destruct H as (t & E & H). inversion H; subst.
    simpl. rewrite (IH i x t E). reflexivity.
Qed.

Lemma set_item_ok : forall text i x,
  i < length text -> exists text', set_item text i x = Ok text'.
Proof.
  induction text as [| w text IH]; intros i x H; simpl in H; [lia |].
  destruct i as [| i]; simpl; [eauto |].
  destruct (IH i x) as (t & E); [lia |]. rewrite E. simpl. eauto.
Qed.

(** The words of the buffer after [set_item] are the new word and words
    that were there. *)
Lemma set_item_In : forall text i x text' w,
  set_item text i x = Ok text' -> In w text' -> w = x \/ In w text.
Proof.
  induction text as [| v text IH]; intros i x text' w H Hin; simpl in H; [discriminate |].
  destruct i as [| i].
  - inversion H; subst. destruct Hin as [<- | Hin]; [left | right; right]; auto.
  - apply bind_ok in H. destruct H as (t & E & H). inversion H; subst.
    destruct Hin as [<- | Hin]; [right; left; reflexivity |].
    destruct (IH i x t w E Hin); [left | right; right]; assumption.
Qed.

(** A loop over all positions that rewrites each word by [f]. *)
Lemma for_each_in_place : forall (body : list string -> nat -> result (list string))
    (f : string -> string),
  (forall done w rest, body (done ++ w :: rest) (length done) = Ok (done ++ f w :: rest)) ->
  forall rest done,
    for_each body (seq (length done) (length rest)) (done ++ rest)
    = Ok (done ++ map f rest).
Proof.
  intros body f Hbody. induction rest as [| w rest IH]; intros done; simpl.
  - reflexivity.
  - rewrite Hbody. simpl.
    replace (done ++ f w :: rest) with ((done ++ [f w]) ++ rest)
      by (rewrite <- app_assoc; reflexivity).
    replace (Datatypes.S (length done)) with (length (done ++ [f w]))
      by (rewrite length_app; simpl; lia).
    rewrite IH. rewrite <- app_assoc. reflexivity.
Qed.

Lemma strip_open_map : forall text, strip_open text = Ok (map strip_open_word text).
Proof.
  intros text. unfold strip_open.
  apply (for_each_in_place strip_open_at strip_open_word) with (done := []).
  intros done w rest. unfold strip_open_at, strip_open_word.
  rewrite get_item_app. cbn [bind].
  destruct (Str.contains_char "(" w); [| reflexivity].
  apply set_item_app.
Qed.

Lemma strip_close_map : forall text, strip_close text = Ok (map strip_close_word text).
Proof.
  intros text. unfold strip_close.
  apply (for_each_in_place strip_close_at strip_close_word) with (done := []).
  intros done w rest. unfold strip_close_at, strip_close_word.
  rewrite get_item_app. cbn [bind].
  destruct (Str.contains_char ")" w); [| reflexivity].
  apply set_item_app.
Qed.

(** The third pass, when it returns, returns as many words as it got. *)
Lemma recover_in_song_length : forall i text item text',
  recover_in_song i text item = Ok text' -> length text' = length text.
Proof.
  intros i text item text' H. unfold recover_in_song in H.
  apply bind_ok in H. destruct H as (w & _ & H).
  destruct (Str.contains _ _); [| inversion H; reflexivity].
  apply bind_ok in H. destruct H as (w0 & _ & H).
  apply bind_ok in H. destruct H as (c & _ & H).
  destruct (negb (Ascii.eqb c Str.newline)); [| inversion H; reflexivity].
  apply bind_ok in H. destruct H as (w' & _ & H).
  eapply set_item_length; eassumption.
Qed.

Lemma recover_at_length : forall original text i text',
  recover_at original text i = Ok text' -> length text' = length text.
Proof.
  intros [s | items] text i text' H; simpl in H.
  - apply bind_ok in H. destruct H as (w & _ & H).
    destruct (Str.contains _ _); [| inversion H; reflexivity].
    apply bind_ok in H. destruct H as (w' & _ & H).
    eapply set_item_length; eassumption.
  - apply (for_each_partial _ _ (recover_in_song i)
             (fun t => length t = length text) items text text');
      [reflexivity | | assumption].
    intros t item t' Ht _ E. rewrite <- Ht. eapply recover_in_song_length; eassumption.
Qed.

Lemma recover_lines_length : forall original text text',
  recover_lines original text = Ok text' -> length text' = length text.
Proof.
  intros original text text' H. unfold recover_lines in H.
  apply (for_each_partial _ _ (recover_at original)
           (fun t => length t = length text) (seq 1 (length text - 1)) text text');
    [reflexivity | | assumption].
  intros t i t' Ht _ E. rewrite <- Ht. eapply recover_at_length; eassumption.
Qed.

Lemma set_item_nth : forall text i x text' j,
  set_item text i x = Ok text' ->
  nth_error text' j = if (j =? i)%nat then Some x else nth_error text j.
Proof.
  induction text as [| w text IH]; intros i x text' j H; simpl in H; [discriminate |].
  destruct i as [| i].
  - inversion H; subst. destruct j; reflexivity.
  - apply bind_ok in H. destruct H as (t & E & H). inversion H; subst.
    destruct j as [| j]; simpl; [reflexivity | apply (IH i x t j E)].
Qed.

(** The third pass always returns when the original is one string. *)
Lemma recover_lines_song : forall s text, exists text', recover_lines (Song s) text = Ok text'.
Proof.
  intros s text. unfold recover_lines.
  destruct (for_each_inv _ _ (recover_at (Song s))
              (fun t => length t = length text) (seq 1 (length text - 1)) text)
    as (t & E & _); [reflexivity | | eauto].
  intros t i Ht Hi. apply in_seq in Hi. cbn [recover_at].
  destruct (get_item_ok t i) as (w & E & _); [lia |].
  rewrite E; cbn [bind].
  destruct (Str.contains _ _); [| eauto].
  destruct (set_item_ok t i (nl +++ w)) as (t' & E'); [lia |].
  exists t'. split; [assumption |].
  rewrite <- Ht. eapply set_item_length; eassumption.
Qed.

(** With a list of songs it returns when no word after the first is empty. *)
Lemma recover_lines_songs : forall items text,
  no_empty_word_after_first text ->
  exists text', recover_lines (Songs items) text = Ok text'.
Proof.
  intros items text Hne. unfold recover_lines.
  destruct (for_each_inv _ _ (recover_at (Songs items))
              (fun t => length t = length text /\ no_empty_word_after_first t)
              (seq 1 (length text - 1)) text)
    as (t & E & _); [split; [reflexivity | assumption] | | eauto].
  intros t i [Ht Hw] Hi. apply in_seq in Hi. cbn [recover_at].
  apply for_each_inv; [split; assumption |].
  clear t Ht Hw. intros t item [Ht Hw] _. unfold recover_in_song.
  destruct (nth_error t i) as [w |] eqn:N;
    [| apply nth_error_None in N; lia].
  assert (E : get_item t i = Ok w) by (unfold get_item; rewrite N; reflexivity).
  rewrite E; cbn [bind].
  destruct (Str.contains _ _); [| eauto].
  assert (Hwne : w <> "") by (apply (Hw i w); [lia | assumption]).
  destruct w as [| c w]; [congruence |]. cbn [Str.first_char bind].
  destruct (negb (Ascii.eqb c Str.newline)); [| eauto].
  destruct (set_item_ok t i (nl +++ String c w)) as (t' & E'); [lia |].
  exists t'. split; [assumption |].
  split; [rewrite <- Ht; eapply set_item_length; eassumption |].
  intros j v Hj Hv. rewrite (set_item_nth t i _ t' j E') in Hv.
  destruct (j =? i)%nat.
  - inversion Hv. discriminate.
  - apply (Hw j v); assumption.
Qed.

(** ** The number of generated words *)

(** C7, as the code has it.  For n >= 2, a model in which every list is a
    distribution and no word is empty, and draws below 1, the generation
    loop ends with exactly k words in the buffer; the two parenthesis passes
    return buffers of k words; the line-break pass, whenever it returns,
    returns k words, and it does return when the original is one string or
    when no word after the first has become empty. *)
Theorem generate_keeps_word_count :
  forall (rng : nat -> Q) (original : lyrics) (lm : language_model) (n k : nat),
    2 <= n ->
    valid_lm lm = true ->
    (forall i, rng i < 1)%Q ->
    exists st t1 t2,
      gen_loop rng lm n k = Ok st /\ length (gs_text st) = k /\
      strip_open (gs_text st) = Ok t1 /\ length t1 = k /\
      strip_close t1 = Ok t2 /\ length t2 = k /\
      (forall t3, recover_lines original t2 = Ok t3 -> length t3 = k) /\
      ((exists s, original = Song s) \/ no_empty_word_after_first t2 ->
       exists t3, recover_lines original t2 = Ok t3).
Proof.
  intros rng original lm n k Hn Hv Hrng.
  destruct (gen_loop_ok rng lm n k Hn Hv Hrng) as (st & E & _ & Hlen).
  exists st, (map strip_open_word (gs_text st)),
    (map strip_close_word (map strip_open_word (gs_text st))).
  split; [assumption |]. split; [assumption |].
  split; [apply strip_open_map |]. split; [rewrite length_map; assumption |].
  split; [apply strip_close_map |]. split; [rewrite !length_map; assumption |].
  split.
  - intros t3 H. apply recover_lines_length in H.
    rewrite H, !length_map. assumption.
  - intros [[s ->] | Hne]; [apply recover_lines_song |].
    destruct original as [s | items];
      [apply recover_lines_song | apply recover_lines_songs; assumption].
Qed.

Lemma love_lm_trained : train_lm love_songs 3 = Ok love_lm.
Proof. vm_compute. reflexivity. Qed.

Lemma generate_keeps_word_count_witness :
  exists st t1 t2,
    gen_loop (fun _ => 1 # 2)%Q love_lm 3 7 = Ok st /\ length (gs_text st) = 7 /\
    strip_open (gs_text st) = Ok t1 /\ length t1 = 7 /\
    strip_close t1 = Ok t2 /\ length t2 = 7 /\
    (forall t3, recover_lines love_songs t2 = Ok t3 -> length t3 = 7) /\
    ((exists s, love_songs = Song s) \/ no_empty_word_after_first t2 ->
     exists t3, recover_lines love_songs t2 = Ok t3).
Proof.
  apply (generate_keeps_word_count (fun _ => 1 # 2)%Q love_songs love_lm 3 7).
  - lia.
  - vm_compute. reflexivity.
  - intros i. reflexivity.
Defined.

(** C7 as stated, for every model and every n, fails.  A model that lists
    no word under the initial history makes the first round raise ValueError
    (there is nothing to unpack), so no buffer is produced; a model that
    lists the empty word empties the history and the second round raises
    IndexError; and with n = 1 the first round raises IndexError. *)
Lemma generate_word_count_counterexample :
  gen_loop (fun _ => 0%Q) [("~ ", [])] 2 1 = Raise ValueError /\
  generate_text (fun _ => 0%Q) (Song "") [("~ ", [])] 2 1 = Raise ValueError /\
  gen_loop (fun _ => 0%Q) [("~ ", [("", 1%Q)])] 2 2 = Raise IndexError /\
  gen_loop (fun _ => 0%Q) [] 1 1 = Raise IndexError.
Proof.
  repeat split; vm_compute; reflexivity.
Qed.

(** ** The fallback token *)

Lemma for_each_id : forall (A S : Type) (body : S -> A -> result S) l s,
  (forall x, In x l -> body s x = Ok s) -> for_each body l s = Ok s.
Proof.
  induction l as [| x l IH]; intros s H; simpl; [reflexivity |].
  rewrite (H x (or_introl eq_refl)); simpl.
  apply IH. intros y Hy. apply H. right. assumption.
Qed.







(** ** The value returned by [generate_text] *)

(** Whatever the inputs, a call that does not raise returns [None]; the
    generated text is only written to standard output. *)
Lemma generate_text_returned : forall rng original lm n k out,
  generate_text rng original lm n k = Ok out -> returned out = PyNone.
Proof.
  intros rng original lm n k out H. unfold generate_text in H.
  apply bind_ok in H. destruct H as (st & _ & H).
  apply bind_ok in H. destruct H as (text & _ & H).
  inversion H. reflexivity.
Qed.

(** C3. Generating three words from the empty model with n = 2 prints
    "~ ~ ~" and a newline, and the value returned is [None], not a string;
    so is it for a trained model. *)
Theorem generate_text_returns_none :
  generate_text (fun _ => 0%Q) (Song "") [] 2 3
    = Ok {| stdout := "~ ~ ~" +++ nl; returned := PyNone |} /\
  generate_text (fun _ => 0%Q) love_songs love_lm 3 4
    = Ok {| stdout := "I love cats I" +++ nl; returned := PyNone |}.
Proof.
  split; vm_compute; reflexivity.
Qed.

(** ** Parentheses *)

(** C4. The two passes turn "(shine)" into "shine", "(glow" into "glow" and
    "gleam)" into "gleam"; but a word with a parenthesis that is not at its
    end loses another character and keeps the parenthesis: "yeah)," becomes
    "yeah)" and "rock(and)roll" becomes "ock(and)rol".  So the text
    generated from the model trained on "oh (yeah, yeah), oh" is printed as
    "oh yeah, yeah) oh". *)
Theorem strip_parentheses_by_position :
  (t <- strip_open ["(shine)"; "(glow"; "gleam)"; "yeah),"; "rock(and)roll"] ;;
   strip_close t)
  = Ok ["shine"; "glow"; "gleam"; "yeah)"; "ock(and)rol"] /\
  (lm <- train_lm yeah_songs 3 ;; generate_text (fun _ => 0%Q) yeah_songs lm 3 4)
  = Ok {| stdout := "oh yeah, yeah) oh" +++ nl; returned := PyNone |}.
Proof.
  split; vm_compute; reflexivity.
Qed.

(** ** A word that becomes empty *)

(** C10. The one-character words "(" and ")" become the empty string in the
    parenthesis passes.  The model trained with n = 3 on the list of the one
    song "( (\n(" generates the words "(", "(", "("; they become three empty
    words, and the line-break pass, given the list as the original, raises
    IndexError on the second one, so that [generate_text] raises it too.
    Given the same song as one string, the pass returns. *)
Theorem empty_word_breaks_line_recovery :
  strip_open ["("] = Ok [""] /\
  strip_close [")"] = Ok [""] /\
  train_lm (Songs [paren_song]) 3 = Ok paren_lm /\
  (exists st, gen_loop (fun _ => 0%Q) paren_lm 3 3 = Ok st /\
              gs_text st = ["("; "("; "("]) /\
  (t <- strip_open ["("; "("; "("] ;; strip_close t) = Ok [""; ""; ""] /\
  recover_lines (Songs [paren_song]) [""; ""; ""] = Raise IndexError /\
  generate_text (fun _ => 0%Q) (Songs [paren_song]) paren_lm 3 3 = Raise IndexError /\
  recover_lines (Song paren_song) [""; ""; ""] = Ok [""; nl; nl].
Proof.
  repeat split; try (vm_compute; reflexivity).
  eexists. split; vm_compute; reflexivity.
Qed.

(** ** Splitting and joining at spaces *)

Module SplitJoin.
Import Str.

Lemma is_word_spec : forall w,
  is_word w = true <-> w <> "" /\ contains_char space w = false.
Proof.
  intros w. unfold is_word.
  rewrite andb_true_iff, !negb_true_iff. split; intros [H1 H2]; split; auto.
  - intros ->. discriminate.
  - destruct w; [congruence | reflexivity].
Qed.

Lemma split_on_word : forall w,
  contains_char space w = false -> split_on at_space w = [w].
Proof.
  induction w as [| c w IH]; intros H; [reflexivity |].
  cbn [contains_char] in H. apply orb_false_iff in H. destruct H as [Hc Hw].
  cbn [split_on]. unfold at_space at 1. rewrite Hc, (IH Hw). reflexivity.
Qed.

Lemma split_on_append_space : forall a b,
  contains_char space a = false ->
  split_on at_space (a +++ String space b) = a :: split_on at_space b.
Proof.
  induction a as [| c a IH]; intros b H; [reflexivity |].
  cbn [contains_char] in H. apply orb_false_iff in H. destruct H as [Hc Ha].
  cbn [String.append split_on]. unfold at_space at 1.
  rewrite Hc, (IH b Ha). reflexivity.
Qed.

Lemma split_on_join : forall ws,
  ws <> [] ->
  Forall (fun w => contains_char space w = false) ws ->
  split_on at_space (join " " ws) = ws.
Proof.
  induction ws as [| w ws IH]; intros Hne Hall; [congruence |].
  inversion Hall as [| ? ? Hw Hws]; subst.
  destruct ws as [| w' ws'].
  - simpl. apply split_on_word. assumption.
  - change (join " " (w :: w' :: ws')) with (w +++ String space (join " " (w' :: ws'))).
    rewrite split_on_append_space by assumption.
    rewrite IH; [reflexivity | discriminate | assumption].
Qed.

Lemma join_split_on : forall h, join " " (split_on at_space h) = h.
Proof.
  induction h as [| c h IH]; [reflexivity |].
  cbn [split_on]. destruct (at_space c) eqn:E.
  - apply Ascii.eqb_eq in E. subst c.
    destruct (split_on at_space h) as [| w ws] eqn:S;
      [exfalso; eapply StrFacts.split_on_nonnil; eassumption |].
    change (join " " ("" :: w :: ws)) with (String space (join " " (w :: ws))).
    rewrite IH. reflexivity.
  - destruct (split_on at_space h) as [| w ws] eqn:S;
      [exfalso; eapply StrFacts.split_on_nonnil; eassumption |].
    rewrite <- IH. destruct ws; reflexivity.
Qed.

Lemma join_snoc : forall sep l w,
  l <> [] -> join sep (l ++ [w]) = join sep l +++ sep +++ w.
Proof.
  induction l as [| x l IH]; intros w Hne; [congruence |].
  destruct l as [| y l']; [reflexivity |].
  change (join sep ((x :: y :: l') ++ [w]))
    with (x +++ sep +++ join sep ((y :: l') ++ [w])).
  rewrite IH by discriminate.
  change (join sep (x :: y :: l')) with (x +++ sep +++ join sep (y :: l')).
  rewrite !StrFacts.append_assoc. reflexivity.
Qed.

Lemma last_char_append : forall a b,
  b <> "" -> last_char (a +++ b) = last_char b.
Proof.
  induction a as [| c a IH]; intros b Hb; [reflexivity |].
  cbn [String.append last_char].
  destruct (a +++ b) eqn:E.
  - destruct a; simpl in E; [congruence | discriminate].
  - rewrite <- E. apply IH. assumption.
Qed.

Lemma last_char_contains : forall s c, last_char s = Ok c -> contains_char c s = true.
Proof.
  induction s as [| d s IH]; intros c H; [discriminate |].
  simpl in H. destruct s as [| e s'].
  - inversion H; subst. simpl. rewrite Ascii.eqb_refl. reflexivity.
  - change (contains_char c (String d (String e s')))
      with (Ascii.eqb c d || contains_char c (String e s')).
    rewrite (IH c H). apply orb_true_r.
Qed.

Lemma last_char_word : forall w,
  is_word w = true -> exists c, last_char w = Ok c /\ Ascii.eqb c space = false.
Proof.
  intros w H. apply is_word_spec in H. destruct H as [Hne Hsp].
  destruct (last_char_ok w Hne) as (c & E). exists c. split; [assumption |].
  destruct (Ascii.eqb_spec c space) as [-> | _]; [| reflexivity].
  apply last_char_contains in E. congruence.
Qed.

Lemma last_char_join : forall ws,
  ws <> [] -> Forall (fun w => is_word w = true) ws ->
  exists c, last_char (join " " ws) = Ok c /\ Ascii.eqb c space = false.
Proof.
  induction ws as [| w ws IH]; intros Hne Hall; [congruence |].
  inversion Hall as [| ? ? Hw Hws]; subst.
  destruct ws as [| w' ws'].
  - simpl. apply last_char_word. assumption.
  - destruct IH as (c & E & Hc); [discriminate | assumption |].
    exists c. split; [| assumption].
    assert (Hj : join " " (w' :: ws') <> "") by (intros Z; rewrite Z in E; discriminate).
    change (join " " (w :: w' :: ws')) with (w +++ " " +++ join " " (w' :: ws')).
    rewrite last_char_append; [rewrite last_char_append; assumption |].
    discriminate.
Qed.

End SplitJoin.

(** ** The history window *)

Import SplitJoin.

Lemma filter_forallb : forall (A : Type) (f : A -> bool) l,
  forallb f l = true -> filter f l = l.
Proof.
  induction l as [| x l IH]; simpl; intros H; [reflexivity |].
  apply andb_true_iff in H. destruct H as [Hx Hl].
  rewrite Hx, (IH Hl). reflexivity.
Qed.

Lemma words_spacefree : forall ws,
  Forall (fun w => is_word w = true) ws ->
  Forall (fun w => Str.contains_char Str.space w = false) ws.
Proof.
  intros ws H. apply Forall_impl with (2 := H).
  intros w Hw. apply is_word_spec in Hw. tauto.
Qed.

Lemma words_nonempty : forall ws,
  Forall (fun w => is_word w = true) ws ->
  forallb (fun w => negb (Str.is_empty w)) ws = true.
Proof.
  intros ws H. apply forallb_forall. rewrite Forall_forall in H.
  intros w Hw. specialize (H w Hw). unfold is_word in H.
  apply andb_true_iff in H. tauto.
Qed.

Lemma is_history_join : forall n ws,
  ws <> [] -> Forall (fun w => is_word w = true) ws -> length ws = n - 1 ->
  is_history n (Str.join " " ws) = true.
Proof.
  intros n ws Hne Hall Hlen. unfold is_history.
  change (Ascii.eqb Str.space) with at_space.
  rewrite split_on_join by (auto using words_spacefree).
  rewrite Hlen, Nat.eqb_refl. apply words_nonempty. assumption.
Qed.

Lemma is_history_words : forall n h,
  is_history n h = true ->
  exists ws, h = Str.join " " ws /\ length ws = n - 1 /\
             Forall (fun w => is_word w = true) ws /\ history_words h = ws.
Proof.
  intros n h H. unfold is_history in H.
  apply andb_true_iff in H. destruct H as [Hlen Hall].
  apply Nat.eqb_eq in Hlen.
  exists (Str.split_on (Ascii.eqb Str.space) h).
  split; [symmetry; apply join_split_on |]. split; [assumption |].
  split.
  - apply Forall_forall. intros w Hw. apply is_word_spec.
    rewrite forallb_forall in Hall. specialize (Hall w Hw).
    split; [intros ->; discriminate |].
    apply (StrFacts.split_on_no_sep (Ascii.eqb Str.space) h w Str.space Hw).
    reflexivity.
  - unfold history_words. apply filter_forallb. assumption.
Qed.

Lemma slide_eq : forall history word,
  slide history word =
  (c <- Str.last_char history ;;
   if Ascii.eqb c Str.space
   then Ok (Str.join " " (tl (Str.split_on at_space history)) +++ word)
   else Ok (Str.join " " (tl (Str.split_on at_space history)) +++ " " +++ word)).
Proof. reflexivity. Qed.

(** Sliding a history of at least two words: the first word goes, the new
    word comes last. *)
Lemma slide_window : forall w0 ws w,
  ws <> [] -> Forall (fun w => is_word w = true) (w0 :: ws) ->
  slide (Str.join " " (w0 :: ws)) w = Ok (Str.join " " (ws ++ [w])).
Proof.
  intros w0 ws w Hne Hall. rewrite slide_eq.
  destruct (last_char_join (w0 :: ws)) as (c & E & Hc); [discriminate | assumption |].
  rewrite E; cbn [bind]. rewrite Hc.
  rewrite split_on_join by (discriminate || auto using words_spacefree).
  cbn [tl]. rewrite join_snoc by assumption. reflexivity.
Qed.

Lemma init_history_split : forall k,
  Str.split_on at_space (Str.repeat_str "~ " k) = repeat "~" k ++ [""].
Proof.
  induction k as [| k IH]; [reflexivity |].
  change (Str.repeat_str "~ " (S k))
    with (String "~" (String Str.space (Str.repeat_str "~ " k))).
  cbn [Str.split_on]. change (at_space "~") with false.
  change (at_space Str.space) with true. cbn iota.
  rewrite IH. reflexivity.
Qed.

Lemma init_history_last : forall k,
  Str.last_char (Str.repeat_str "~ " (S k)) = Ok Str.space.
Proof.
  induction k as [| k IH]; [reflexivity |].
  change (Str.repeat_str "~ " (S (S k))) with ("~ " +++ Str.repeat_str "~ " (S k)).
  rewrite last_char_append; [assumption | discriminate].
Qed.

(** The initial history is its (n-1) placeholders joined by spaces, and one
    more space. *)
Lemma init_history_join : forall k,
  Str.repeat_str "~ " (S k) = Str.join " " (repeat "~" (S k)) +++ " ".
Proof.
  induction k as [| k IH]; [reflexivity |].
  change (Str.repeat_str "~ " (S (S k))) with ("~ " +++ Str.repeat_str "~ " (S k)).
  rewrite IH. reflexivity.
Qed.

(** The first slide, for n >= 3: one placeholder goes, the trailing space
    is used up. *)
Lemma slide_init : forall k w,
  slide (Str.repeat_str "~ " (S (S k))) w = Ok (Str.join " " (repeat "~" (S k) ++ [w])).
Proof.
  intros k w. rewrite slide_eq, init_history_last; cbn [bind].
  rewrite Ascii.eqb_refl, init_history_split.
  change (tl (repeat "~" (S (S k)) ++ [""])) with (repeat "~" (S k) ++ [""]).
  rewrite !join_snoc by discriminate.
  rewrite !StrFacts.append_assoc. reflexivity.
Qed.

Lemma repeat_words : forall k, Forall (fun w => is_word w = true) (repeat "~" k).
Proof.
  induction k as [| k IH]; simpl; constructor; [reflexivity | assumption].
Qed.

Lemma history_words_init : forall k,
  history_words (Str.repeat_str "~ " k) = repeat "~" k.
Proof.
  intros k. unfold history_words. change (Ascii.eqb Str.space) with at_space.
  rewrite init_history_split, filter_app. simpl. rewrite app_nil_r.
  induction k as [| k IH]; simpl; [| rewrite IH]; reflexivity.
Qed.

Lemma history_words_join : forall ws,
  ws <> [] -> Forall (fun w => is_word w = true) ws ->
  history_words (Str.join " " ws) = ws.
Proof.
  intros ws Hne Hall. unfold history_words. change (Ascii.eqb Str.space) with at_space.
  rewrite split_on_join by auto using words_spacefree.
  apply filter_forallb, words_nonempty. assumption.
Qed.

(** One slide, from any history that training or generation reaches with
    n >= 3: the result is a history in the strict sense, made of the words of
    the old one without the first, and the new word. *)
Lemma slide_hist : forall n h w,
  3 <= n -> hist_inv n h -> is_word w = true ->
  exists h', slide h w = Ok h' /\ is_history n h' = true /\
             history_words h' = tl (history_words h) ++ [w].
Proof.
  intros n h w Hn [-> | Hh] Hw.
  - unfold init_history. destruct (n - 1) as [| [| k]] eqn:E; [lia | lia |].
    rewrite slide_init, history_words_init. cbn [repeat tl].
    assert (Hall : Forall (fun w => is_word w = true) (repeat "~" (S k) ++ [w])).
    { apply Forall_app. split; [apply repeat_words | repeat constructor; assumption]. }
    eexists. split; [reflexivity |]. split.
    + apply is_history_join; [discriminate | assumption |].
      simpl. rewrite length_app, repeat_length. simpl. lia.
    + apply history_words_join; [discriminate | assumption].
  - destruct (is_history_words n h Hh) as (ws & -> & Hlen & Hall & Ews).
    destruct ws as [| w0 [| w1 ws]]; [simpl in Hlen; lia | simpl in Hlen; lia |].
    rewrite slide_window by (discriminate || assumption).
    rewrite Ews. cbn [tl].
    assert (Hall' : Forall (fun w => is_word w = true) ((w1 :: ws) ++ [w])).
    { inversion Hall; subst. apply Forall_app. split; [assumption |].
      repeat constructor; assumption. }
    eexists. split; [reflexivity |]. split.
    + apply is_history_join; [discriminate | assumption |].
      rewrite length_app. simpl in *. lia.
    + apply history_words_join; [discriminate | assumption].
Qed.

Lemma generate_word_word : forall rng lm history drawn,
  valid_lm lm = true -> spacefree_lm lm = true ->
  (forall i, rng i < 1)%Q ->
  exists w drawn', generate_word rng lm history drawn = Ok (w, drawn') /\ is_word w = true.
Proof.
  intros rng lm history drawn Hv Hs Hrng. unfold generate_word.
  destruct (lm_get lm history) as [pairs |] eqn:G.
  - destruct (valid_lm_get lm history pairs Hv G) as [Hd Hw].
    destruct (np_random_choice_ok (rng drawn) pairs Hd (Hrng drawn)) as (w & E & Hin).
    assert (U : unzip pairs = Some (map fst pairs, map snd pairs)).
    { destruct pairs; [discriminate | reflexivity]. }
    rewrite U, E. cbn [bind]. exists w, (S drawn). split; [reflexivity |].
    apply is_word_spec. split; [auto |].
    apply lm_get_In in G. unfold spacefree_lm in Hs.
    rewrite forallb_forall in Hs. specialize (Hs _ G). cbn [snd] in Hs.
    rewrite forallb_forall in Hs.
    apply in_map_iff in Hin. destruct Hin as (p & <- & Hp).
    apply negb_true_iff. apply Hs. assumption.
  - exists "~", drawn. split; reflexivity.
Qed.

Lemma hist_inv_length : forall n h,
  hist_inv n h -> length (history_words h) = n - 1.
Proof.
  intros n h [-> | H].
  - unfold init_history. rewrite history_words_init. apply repeat_length.
  - destruct (is_history_words n h H) as (ws & _ & Hlen & _ & ->). assumption.
Qed.

Lemma train_word_hist : forall n st token,
  3 <= n -> hist_inv n (snd st) -> Str.contains_char Str.space token = false ->
  exists st', train_word st token = Ok st' /\ hist_inv n (snd st').
Proof.
  intros n [m h] token Hn Hh Hsp. cbn [snd] in Hh. unfold train_word.
  destruct (skipped token) eqn:Hsk; [eauto |].
  assert (Hw : is_word token = true).
  { apply is_word_spec. split; [| assumption].
    intros ->. discriminate. }
  destruct (slide_hist n h token Hn Hh Hw) as (h' & E & Hh' & _).
  rewrite E; cbn [bind]. eexists. split; [reflexivity |]. right. assumption.
Qed.

Lemma gen_loop_hist : forall rng lm n k,
  3 <= n -> valid_lm lm = true -> spacefree_lm lm = true ->
  (forall i, rng i < 1)%Q ->
  exists st, gen_loop rng lm n k = Ok st /\ hist_inv n (gs_history st).
Proof.
  intros rng lm n k Hn Hv Hs Hrng. unfold gen_loop.
  apply (for_each_range _ (gen_step rng lm) (fun _ st => hist_inv n (gs_history st))).
  - left. reflexivity.
  - intros _ j [h text d] Hh. cbn [gs_history] in Hh. unfold gen_step.
    cbn [gs_history gs_text gs_drawn].
    destruct (generate_word_word rng lm h d Hv Hs Hrng) as (w & d' & E & Hw).
    rewrite E; cbn [bind].
    destruct (slide_hist n h w Hn Hh Hw) as (h' & E' & Hh' & _).
    rewrite E'; cbn [bind]. eexists. split; [reflexivity |].
    right. assumption.
Qed.

(** C2, as the code has it.  For n >= 3 the initial history is the (n-1)
    placeholders joined by single spaces followed by one more space.  One
    slide with a non-empty word without a space, from any history that is so
    reached, gives exactly (n-1) non-empty words joined by single spaces with
    no space before or after: the words of the old history without the
    first, then the new word.  The history after any number of tokens of a
    song in training, and after any number of rounds in generation from a
    valid model whose words have no space, is the initial one or such a
    history, and holds (n-1) words. *)
Theorem history_window_from_three :
  forall (n k : nat) (rng : nat -> Q) (lm : language_model) (m : model)
         (song : string) (seen rest : list string) (h w : string),
    3 <= n ->
    hist_inv n h ->
    is_word w = true ->
    re_split song = seen ++ rest ->
    valid_lm lm = true ->
    spacefree_lm lm = true ->
    (forall i, rng i < 1)%Q ->
    init_history n = Str.join " " (repeat "~" (n - 1)) +++ " " /\
    (exists h', slide h w = Ok h' /\ is_history n h' = true /\
                history_words h' = tl (history_words h) ++ [w]) /\
    (exists m' h', for_each train_word seen (m, init_history n) = Ok (m', h') /\
                   hist_inv n h' /\ length (history_words h') = n - 1) /\
    (exists st, gen_loop rng lm n k = Ok st /\
                hist_inv n (gs_history st) /\
                length (history_words (gs_history st)) = n - 1).
Proof.
  intros n k rng lm m song seen rest h w Hn Hh Hw Hsplit Hv Hs Hrng.
  split.
  { unfold init_history. destruct (n - 1) as [| j] eqn:E; [lia |].
    apply init_history_join. }
  split; [apply slide_hist; assumption |].
  split.
  - destruct (for_each_inv _ _ train_word (fun st => hist_inv n (snd st)) seen
                (m, init_history n)) as ([m' h'] & E & Hh').
    + left. reflexivity.
    + intros st token Hst Hin. apply train_word_hist; try assumption.
      apply (StrFacts.split_on_no_sep is_sep song token Str.space); [| reflexivity].
      unfold re_split in Hsplit. rewrite Hsplit. apply in_or_app. left. assumption.
    + exists m', h'. cbn [snd] in Hh'.
      split; [assumption |]. split; [assumption | apply hist_inv_length; assumption].
  - destruct (gen_loop_hist rng lm n k Hn Hv Hs Hrng) as (st & E & Hst).
    exists st. split; [assumption |].
    split; [assumption | apply hist_inv_length; assumption].
Qed.

Lemma history_window_from_three_witness :
  init_history 3 = Str.join " " (repeat "~" (3 - 1)) +++ " " /\
  (exists h', slide "I love" "cats" = Ok h' /\ is_history 3 h' = true /\
              history_words h' = tl (history_words "I love") ++ ["cats"]) /\
  (exists m' h', for_each train_word ["I"; "love"; "[x]"] ([], init_history 3) = Ok (m', h') /\
                 hist_inv 3 h' /\ length (history_words h') = 3 - 1) /\
  (exists st, gen_loop (fun _ => 1 # 2)%Q love_lm 3 6 = Ok st /\
              hist_inv 3 (gs_history st) /\
              length (history_words (gs_history st)) = 3 - 1).
Proof.
  apply (history_window_from_three 3 6 (fun _ => 1 # 2)%Q love_lm []
           "I love [x] cats" ["I"; "love"; "[x]"] ["cats"] "I love" "cats").
  - lia.
  - right. reflexivity.
  - reflexivity.
  - reflexivity.
  - vm_compute. reflexivity.
  - vm_compute. reflexivity.
  - intros i. reflexivity.
Defined.

(** C2 as stated fails at the start: for n = 3 the history before the first
    word, in training and in generation, is "~ ~ " with a space at its end,
    which is not two words joined by one space. *)
Lemma history_window_counterexample :
  for_each train_word [] ([], init_history 3) = Ok ([], "~ ~ ") /\
  (exists st, gen_loop (fun _ => 0%Q) love_lm 3 0 = Ok st /\ gs_history st = "~ ~ ") /\
  is_history 3 "~ ~ " = false /\
  Str.last_char "~ ~ " = Ok Str.space.
Proof.
  split; [reflexivity |].
  split; [eexists; split; reflexivity |].
  split; reflexivity.
Qed.

(** ** Trained models are valid models *)

Lemma model_incr_spacefree : forall h w m,
  Str.contains_char Str.space w = false -> model_spacefree m ->
  model_spacefree (model_incr h w m).
Proof.
  intros h w m Hw Hm. unfold model_incr, model_spacefree.
  assert (Hc : forall c, counter_spacefree c -> counter_spacefree (counter_incr w c)).
  { intros c Hc. unfold counter_incr, counter_spacefree.
    apply upsert_Forall with (P := fun k _ => Str.contains_char Str.space k = false);
      auto. }
  apply upsert_Forall with (P := fun _ c => counter_spacefree c); auto.
  apply Hc. constructor.
Qed.

Lemma train_word_spacefree : forall st w st',
  Str.contains_char Str.space w = false -> model_spacefree (fst st) ->
  train_word st w = Ok st' -> model_spacefree (fst st').
Proof.
  intros [m h] w st' Hw Hm H. unfold train_word in H. cbn [fst] in Hm.
  destruct (skipped w); [inversion H; assumption |].
  apply bind_ok in H. destruct H as (h' & _ & H). inversion H.
  apply model_incr_spacefree; assumption.
Qed.

Lemma re_split_spacefree : forall s w,
  In w (re_split s) -> Str.contains_char Str.space w = false.
Proof.
  intros s w H. apply (StrFacts.split_on_no_sep is_sep s w Str.space H). reflexivity.
Qed.

Lemma train_counts_spacefree : forall l n m,
  train_counts l n = Ok m -> model_spacefree m.
Proof.
  intros [s | items] n m H; simpl in H.
  - apply (for_each_partial _ _ (train_token n) model_spacefree (re_split s) [] m);
      [constructor | | assumption].
    intros m0 w m1 Hm0 Hw E. unfold train_token in E.
    apply bind_ok in E. destruct E as ([m2 h2] & E & E2). inversion E2; subst.
    apply (train_word_spacefree (m0, init_history n) w (m1, h2));
      [eapply re_split_spacefree; eassumption | assumption | assumption].
  - apply (for_each_partial _ _ (train_song n) model_spacefree (map re_split items) [] m);
      [constructor | | assumption].
    intros m0 item m1 Hm0 Hitem E. unfold train_song in E.
    apply bind_ok in E. destruct E as ([m2 h2] & E & E2). inversion E2; subst.
    apply in_map_iff in Hitem. destruct Hitem as (s & <- & _).
    apply (for_each_partial _ _ train_word (fun st => model_spacefree (fst st))
             (re_split s) (m0, init_history n) (m1, h2)); [assumption | | assumption].
    intros st w st' Hst Hw E'.
    apply (train_word_spacefree st w st');
      [eapply re_split_spacefree; eassumption | assumption | assumption].
Qed.

Lemma freq_nonneg : forall cnt tot,
  (0 <= Qred (inject_Z (Z.of_nat cnt) / inject_Z (Z.of_nat tot)))%Q.
Proof.
  intros cnt tot. rewrite Qred_correct. unfold Qdiv.
  apply Qmult_le_0_compat.
  - unfold Qle; simpl. lia.
  - apply Qinv_le_0_compat. unfold Qle; simpl. lia.
Qed.

Lemma distribution_valid : forall c, counter_ok c -> valid_dist (distribution c) = true.
Proof.
  intros c Hc. unfold valid_dist.
  assert (Ht : total c <> 0) by (apply counter_ok_total in Hc; lia).
  rewrite !andb_true_iff, !negb_true_iff. split; [split |].
  - unfold distribution. rewrite length_map.
    rewrite (Permutation_length (most_common_perm c)).
    destruct Hc as (Hne & _). destruct c; [congruence | reflexivity].
  - destruct (existsb _ _) eqn:E; [| reflexivity].
    apply existsb_exists in E. destruct E as (q & Hq & Hneg).
    unfold distribution in Hq. rewrite map_map in Hq. cbn [snd] in Hq.
    apply in_map_iff in Hq. destruct Hq as (e & <- & _).
    destruct (Qlt_le_dec _ 0) as [Hlt | _]; [| discriminate].
    exfalso. apply (Qlt_not_le _ _ Hlt). apply freq_nonneg.
  - apply Qeq_bool_iff. apply distribution_sum. assumption.
Qed.

(** For n >= 2 the model that training returns is a valid model, and no
    word in it has a space: the generator's hypotheses hold of it. *)
Lemma trained_model_valid : forall l n,
  2 <= n ->
  exists lm, train_lm l n = Ok lm /\ valid_lm lm = true /\ spacefree_lm lm = true.
Proof.
  intros l n Hn. destruct (train_lm_eq l n Hn) as (m & Em & [_ Hm] & Elm).
  apply train_counts_spacefree in Em.
  eexists. split; [exact Elm |].
  rewrite Forall_forall in Hm. unfold model_spacefree in Em. rewrite Forall_forall in Em.
  split.
  - unfold valid_lm. apply forallb_forall. intros e He.
    apply in_map_iff in He. destruct He as (e0 & <- & He0). cbn [snd].
    destruct (Hm e0 He0) as [_ Hc].
    rewrite (distribution_valid _ Hc). cbn [andb].
    apply forallb_forall. intros [w q] Hwq. cbn [fst].
    apply distribution_words in Hwq. apply in_map_iff in Hwq.
    destruct Hwq as (p & Ep & Hp). destruct Hc as (_ & _ & Hall).
    rewrite Forall_forall in Hall. destruct (Hall p Hp) as [Hs _].
    apply skipped_false in Hs. rewrite Ep in Hs. destruct Hs as (_ & _ & Hs).
    rewrite Hs. reflexivity.
  - unfold spacefree_lm. apply forallb_forall. intros e He.
    apply in_map_iff in He. destruct He as (e0 & <- & He0). cbn [snd].
    apply forallb_forall. intros [w q] Hwq. cbn [fst].
    apply distribution_words in Hwq. apply in_map_iff in Hwq.
    destruct Hwq as (p & Ep & Hp).
    specialize (Em e0 He0). unfold counter_spacefree in Em.
    rewrite Forall_forall in Em. rewrite <- Ep, (Em p Hp). reflexivity.
Qed.

(** ** The counters are the counts of what was observed *)

Section Lookup.
Variable V : Type.
Variables (f : V -> V) (default : V).

Lemma lookup_upsert : forall k k' (d : list (string * V)),
  lookup k' (upsert k f default d) =
  if String.eqb k' k
  then Some (f (match lookup k d with Some v => v | None => default end))
  else lookup k' d.
Proof.
  induction d as [| [k0 v] d IH]; simpl.
  - destruct (String.eqb k' k); reflexivity.
  - destruct (String.eqb_spec k k0) as [-> | Hne]; simpl.
    + destruct (String.eqb k' k0); reflexivity.
    + rewrite IH. destruct (String.eqb_spec k' k0) as [-> | Hne'].
      * destruct (String.eqb_spec k0 k); [congruence | reflexivity].
      * reflexivity.
Qed.

Lemma lookup_In : forall k v (d : list (string * V)),
  NoDup (map fst d) -> In (k, v) d -> lookup k d = Some v.
Proof.
  induction d as [| [k0 v0] d IH]; simpl; intros Hnd Hin; [contradiction |].
  inversion Hnd as [| ? ? Hk0 Hd]; subst.
  destruct Hin as [E | Hin].
  - inversion E; subst. rewrite String.eqb_refl. reflexivity.
  - destruct (String.eqb_spec k k0) as [-> | _]; [| auto].
    exfalso. apply Hk0. apply (in_map fst) in Hin. assumption.
Qed.

End Lookup.

(** The counter of a history in a model, empty when there is none. *)
Lemma counter_at_incr : forall h w m h',
  match lookup h' (model_incr h w m) with Some c => c | None => [] end =
  if String.eqb h' h
  then counter_incr w (match lookup h' m with Some c => c | None => [] end)
  else match lookup h' m with Some c => c | None => [] end.
Proof.
  intros h w m h'. unfold model_incr. rewrite lookup_upsert.
  destruct (String.eqb_spec h' h) as [-> | _]; reflexivity.
Qed.

Lemma counter_at_replay : forall log m h,
  match lookup h (replay log m) with Some c => c | None => [] end =
  fold_left (fun c w => counter_incr w c) (words_after h log)
            (match lookup h m with Some c => c | None => [] end).
Proof.
  unfold replay, words_after.
  induction log as [| [h0 w0] log IH]; intros m h; simpl; [reflexivity |].
  rewrite IH, counter_at_incr.
  destruct (String.eqb h h0); reflexivity.
Qed.

Lemma replay_snoc : forall log h w m,
  replay (log ++ [(h, w)]) m = model_incr h w (replay log m).
Proof.
  intros log h w m. unfold replay. rewrite fold_left_app. reflexivity.
Qed.

(** A loop that follows another one step by step. *)
Lemma for_each_sim : forall (A S T : Type) (R : S -> T -> Prop)
    (body1 : S -> A -> result S) (body2 : T -> A -> result T) l s t s',
  R s t ->
  (forall s t x s', R s t -> body1 s x = Ok s' ->
                    exists t', body2 t x = Ok t' /\ R s' t') ->
  for_each body1 l s = Ok s' ->
  exists t', for_each body2 l t = Ok t' /\ R s' t'.
Proof.
  induction l as [| x l IH]; intros s t s' HR Hstep H; simpl in H.
  - inversion H; subst. exists t. split; [reflexivity | assumption].
  - apply bind_ok in H. destruct H as (s1 & E & H).
    destruct (Hstep s t x s1 HR E) as (t1 & E' & HR1).
    simpl. rewrite E'; simpl. apply (IH s1 t1 s' HR1 Hstep H).
Qed.

Lemma train_word_observed : forall m h log word st',
  m = replay log [] ->
  train_word (m, h) word = Ok st' ->
  exists log', observe_word (log, h) word = Ok (log', snd st')
               /\ fst st' = replay log' [].
Proof.
  intros m h log word st' Hm H. unfold train_word in H. unfold observe_word.
  destruct (skipped word).
  - inversion H; subst. exists log. split; reflexivity.
  - apply bind_ok in H. destruct H as (h' & E & H). inversion H; subst.
    rewrite E; cbn [bind]. eexists. split; [reflexivity |].
    cbn [fst]. symmetry. apply replay_snoc.
Qed.

(** The model before normalisation is the replay of the observed counts. *)
Lemma train_counts_observed : forall l n m,
  train_counts l n = Ok m ->
  exists log, observations l n = Ok log /\ m = replay log [].
Proof.
  intros [s | items] n m H; simpl in H |- *.
  - apply (for_each_sim _ _ _ (fun m log => m = replay log [])
             (train_token n) (observe_token n) (re_split s) [] [] m);
      [reflexivity | | assumption].
    intros m0 log0 w m1 Hm0 E. unfold train_token in E.
    apply bind_ok in E. destruct E as ([m2 h2] & E & E2). inversion E2; subst m2.
    destruct (train_word_observed _ _ log0 _ _ Hm0 E) as (log1 & E1 & Hm1).
    unfold observe_token. rewrite E1; cbn [bind]. eauto.
  - apply (for_each_sim _ _ _ (fun m log => m = replay log [])
             (train_song n) (observe_song n) (map re_split items) [] [] m);
      [reflexivity | | assumption].
    intros m0 log0 item m1 Hm0 E. unfold train_song in E.
    apply bind_ok in E. destruct E as ([m2 h2] & E & E2). inversion E2; subst m2.
    destruct (for_each_sim _ _ _
                (fun (st : model * string) (ob : list (string * string) * string) =>
                   fst st = replay (fst ob) [] /\ snd st = snd ob)
                train_word observe_word item (m0, init_history n)
                (log0, init_history n) (m1, h2)) as ([log1 h1] & E1 & Hm1 & Hh1);
      [split; [assumption | reflexivity] | | assumption |].
    + intros [ma ha] [loga hb] w st' [Ha Hb] Ew. cbn [fst snd] in Ha, Hb. subst hb.
      destruct (train_word_observed _ _ loga _ _ Ha Ew) as (logb & Eb & Hmb).
      exists (logb, snd st'). split; [assumption | split; [assumption | reflexivity]].
    + unfold observe_song. rewrite E1; cbn [bind]. cbn [fst] in Hm1. eauto.
Qed.

(** [Counter(ws)]: its keys, its counts and its total. *)
Lemma counts_keys : forall ws c,
  map fst (fold_left (fun c w => counter_incr w c) ws c) =
  fold_left (fun acc w => if existsb (String.eqb w) acc then acc else acc ++ [w])
            ws (map fst c).
Proof.
  induction ws as [| w ws IH]; intros c; cbn [fold_left]; [reflexivity |].
  rewrite IH. unfold counter_incr. rewrite upsert_keys. reflexivity.
Qed.

Lemma counts_of_keys : forall ws, map fst (counts_of ws) = first_seen ws.
Proof. intros ws. apply counts_keys. Qed.

Lemma counter_incr_lookup : forall w c w',
  match lookup w' (counter_incr w c) with Some k => k | None => 0 end =
  match lookup w' c with Some k => k | None => 0 end
  + (if String.eqb w' w then 1 else 0).
Proof.
  intros w c w'. unfold counter_incr. rewrite lookup_upsert.
  destruct (String.eqb_spec w' w) as [-> | _]; [| lia].
  destruct (lookup w c); lia.
Qed.

Lemma counts_lookup : forall ws c w,
  match lookup w (fold_left (fun c w => counter_incr w c) ws c) with
  | Some k => k | None => 0 end =
  match lookup w c with Some k => k | None => 0 end + count_occ string_dec ws w.
Proof.
  induction ws as [| v ws IH]; intros c w; simpl; [lia |].
  rewrite IH, counter_incr_lookup.
  destruct (string_dec v w) as [-> | Hne].
  - rewrite String.eqb_refl. lia.
  - destruct (String.eqb_spec w v); [congruence | lia].
Qed.

Lemma counter_incr_total : forall w c, total (counter_incr w c) = total c + 1.
Proof.
  intros w. unfold counter_incr.
  induction c as [| [w' k] c IH]; simpl; [reflexivity |].
  destruct (String.eqb w w'); simpl; [| rewrite IH]; lia.
Qed.

Lemma counts_total : forall ws c,
  total (fold_left (fun c w => counter_incr w c) ws c) = total c + length ws.
Proof.
  induction ws as [| w ws IH]; intros c; simpl; [lia |].
  rewrite IH, counter_incr_total. lia.
Qed.

Lemma counts_of_NoDup : forall ws, NoDup (map fst (counts_of ws)).
Proof.
  intros ws. unfold counts_of.
  assert (H : forall c, NoDup (map fst c) ->
            NoDup (map fst (fold_left (fun c w => counter_incr w c) ws c))).
  { induction ws as [| w ws IH]; intros c Hc; simpl; [assumption |].
    apply IH. apply upsert_NoDup. assumption. }
  apply H. constructor.
Qed.

Lemma counts_of_count : forall ws w k,
  In (w, k) (counts_of ws) -> k = count_occ string_dec ws w.
Proof.
  intros ws w k Hin.
  pose proof (counts_lookup ws [] w) as H. fold (counts_of ws) in H.
  rewrite (lookup_In _ w k (counts_of ws) (counts_of_NoDup ws) Hin) in H.
  simpl in H. assumption.
Qed.

(** The counter that training holds for a history is the counter of the
    words observed after that history. *)
Lemma trained_counter_observed : forall l n m log h c,
  train_counts l n = Ok m -> observations l n = Ok log ->
  NoDup (map fst m) -> In (h, c) m ->
  c = counts_of (words_after h log).
Proof.
  intros l n m log h c Hm Hlog Hnd Hin.
  destruct (train_counts_observed l n m Hm) as (log' & Hlog' & ->).
  assert (log' = log) by congruence. subst log'.
  pose proof (counter_at_replay log [] h) as H.
  rewrite (lookup_In _ h c _ Hnd Hin) in H. exact H.
Qed.

(** ** The trained distributions *)

(** C5. For n >= 2 training returns a model, and every list in it comes from
    the counter [c] that training built for that history.  That counter is
    the counter of the words observed after the history: its words are the
    distinct ones in the order in which they were first met, each with the
    number of times it was met, and its total is the number of words
    observed after the history.  The list is not empty, its probabilities
    sum to 1 over the rationals, and it lists the entries of [c] by
    descending count, entries with equal counts in the order of [c], each
    word with its count divided by the total of [c]. *)
Theorem trained_model_is_normalized :
  forall (l : lyrics) (n : nat),
    2 <= n ->
    exists (log : list (string * string)) (m : model) (lm : language_model),
      observations l n = Ok log /\
      train_counts l n = Ok m /\
      train_lm l n = Ok lm /\
      map fst lm = map fst m /\
      forall h dist, In (h, dist) lm ->
        exists c, In (h, c) m /\
          c = counts_of (words_after h log) /\
          map fst c = first_seen (words_after h log) /\
          (forall w k, In (w, k) c ->
             k = count_occ string_dec (words_after h log) w /\ 1 <= k) /\
          total c = length (words_after h log) /\
          dist <> [] /\
          (sumQ (map snd dist) == 1)%Q /\
          exists s, Permutation s c /\ descending s /\ ties_in_order_of c s /\
                    frequencies_of c s dist.
Proof.
  intros l n Hn.
  destruct (train_lm_eq l n Hn) as (m & Em & Hm & Elm).
  destruct (train_counts_observed l n m Em) as (log & Elog & _).
  exists log, m. eexists.
  split; [exact Elog |]. split; [exact Em |]. split; [exact Elm |].
  split; [rewrite map_map; reflexivity |].
  intros h dist Hin.
  apply in_map_iff in Hin. destruct Hin as ([h' c] & E & He).
  simpl in E. inversion E; subst. clear E.
  exists c. split; [assumption |].
  destruct Hm as [Hnd Hall]. rewrite Forall_forall in Hall.
  destruct (Hall _ He) as [_ Hc]. simpl in Hc.
  pose proof (trained_counter_observed l n m log h c Em Elog Hnd He) as Ec.
  split; [assumption |].
  split; [rewrite Ec; apply counts_of_keys |].
  split.
  { intros w k Hwk. split.
    - apply counts_of_count. rewrite <- Ec. assumption.
    - destruct Hc as (_ & _ & Hpos). rewrite Forall_forall in Hpos.
      apply (Hpos (w, k) Hwk). }
  split.
  { rewrite Ec at 1. unfold counts_of. rewrite counts_total. reflexivity. }
  assert (Ht : total c <> 0) by (apply counter_ok_total in Hc; lia).
  split.
  { unfold distribution. destruct Hc as (Hne & _).
    intros Hnil. apply map_eq_nil in Hnil.
    apply Hne. apply Permutation_nil. rewrite <- Hnil. apply most_common_perm. }
  split; [apply distribution_sum; assumption |].
  exists (most_common c).
  split; [apply most_common_perm |].
  split; [apply most_common_descending |].
  split; [apply most_common_stable | apply distribution_frequencies].
Qed.

Lemma trained_model_is_normalized_witness :
  exists (log : list (string * string)) (m : model) (lm : language_model),
    observations love_songs 3 = Ok log /\
    train_counts love_songs 3 = Ok m /\
    train_lm love_songs 3 = Ok lm /\
    map fst lm = map fst m /\
    forall h dist, In (h, dist) lm ->
      exists c, In (h, c) m /\
        c = counts_of (words_after h log) /\
        map fst c = first_seen (words_after h log) /\
        (forall w k, In (w, k) c ->
           k = count_occ string_dec (words_after h log) w /\ 1 <= k) /\
        total c = length (words_after h log) /\
        dist <> [] /\
        (sumQ (map snd dist) == 1)%Q /\
        exists s, Permutation s c /\ descending s /\ ties_in_order_of c s /\
                  frequencies_of c s dist.
Proof.
  apply (trained_model_is_normalized love_songs 3).
  lia.
Defined.

(** The observed counts and the counters of the two-song corpus. *)
Example love_songs_observed :
  observations love_songs 3 =
    Ok [("~ ~ ", "I"); ("~ I", "love"); ("I love", "cats"); ("love cats", "I");
        ("cats I", "love"); ("I love", "dogs");
        ("~ ~ ", "I"); ("~ I", "love"); ("I love", "you")] /\
  train_counts love_songs 3 =
    Ok [("~ ~ ", [("I", 2)]); ("~ I", [("love", 2)]);
        ("I love", [("cats", 1); ("dogs", 1); ("you", 1)]);
        ("love cats", [("I", 1)]); ("cats I", [("love", 1)])].
Proof.
  split; vm_compute; reflexivity.
Qed.

(** * Further properties of the code *)

(** ** A corpus without tokens *)

Lemma existsb_false : forall (A : Type) (f : A -> bool) l x,
  existsb f l = false -> In x l -> f x = false.
Proof.
  intros A f l x H Hin.
  destruct (f x) eqn:E; [| reflexivity].
  assert (existsb f l = true) by (apply existsb_exists; eauto). congruence.
Qed.

Lemma train_song_no_token : forall n m item,
  existsb is_token item = false -> train_song n m item = Ok m.
Proof.
  intros n m item H. unfold train_song.
  rewrite (for_each_id _ _ train_word item (m, init_history n)); [reflexivity |].
  intros w Hw. apply train_word_skipped.
  apply (existsb_false _ _ _ _ H) in Hw. unfold is_token in Hw.
  apply negb_false_iff. assumption.
Qed.

(** X1. A corpus in which every token is skipped (the empty string, the
    empty list, section marks only) trains to the empty model, for every n,
    n = 1 and n = 0 included. *)
Theorem train_lm_without_token :
  forall (l : lyrics) (n : nat), has_token l = false -> train_lm l n = Ok [].
Proof.
  intros [s | items] n H; unfold train_lm; simpl in H |- *.
  - rewrite for_each_id; [reflexivity |].
    intros w Hw. apply train_token_skipped.
    apply (existsb_false _ _ _ _ H) in Hw. unfold is_token in Hw.
    apply negb_false_iff. assumption.
  - rewrite for_each_id; [reflexivity |].
    intros item Hitem. apply in_map_iff in Hitem. destruct Hitem as (s & <- & Hs).
    apply train_song_no_token. apply (existsb_false _ _ _ _ H) in Hs. assumption.
Qed.

Lemma train_lm_without_token_witness :
  train_lm (Songs ["[Chorus]"; ""; "[Verse 1] [x]"]) 1 = Ok [].
Proof.
  apply (train_lm_without_token (Songs ["[Chorus]"; ""; "[Verse 1] [x]"]) 1).
  reflexivity.
Defined.

(** ** The model of a single string *)

Lemma train_token_counted : forall n m w,
  2 <= n -> is_token w = true ->
  train_token n m w = Ok (model_incr (init_history n) w m).
Proof.
  intros n m w Hn Hw. unfold is_token in Hw. apply negb_true_iff in Hw.
  unfold train_token, train_word. rewrite Hw.
  destruct (slide_not_skipped (init_history n) w
              (init_history_not_skipped n Hn) Hw) as (h' & E & _).
  rewrite E. reflexivity.
Qed.

Lemma model_incr_same_key : forall h toks c,
  fold_left (fun m w => model_incr h w m) toks [(h, c)] =
  [(h, fold_left (fun c w => counter_incr w c) toks c)].
Proof.
  induction toks as [| w toks IH]; intros c; cbn [fold_left]; [reflexivity |].
  unfold model_incr at 2. cbn [upsert]. rewrite String.eqb_refl. apply IH.
Qed.

Lemma train_tokens_counted : forall n toks m,
  2 <= n -> forallb is_token toks = true ->
  for_each (train_token n) toks m =
  Ok (fold_left (fun m w => model_incr (init_history n) w m) toks m).
Proof.
  induction toks as [| w toks IH]; intros m Hn H; [reflexivity |].
  cbn [forallb] in H. apply andb_true_iff in H. destruct H as [Hw Ht].
  cbn [for_each fold_left]. rewrite train_token_counted by assumption.
  cbn [bind]. apply IH; assumption.
Qed.

Lemma forallb_filter : forall (A : Type) (f : A -> bool) l,
  forallb f (filter f l) = true.
Proof.
  induction l as [| x l IH]; simpl; [reflexivity |].
  destruct (f x) eqn:E; simpl; [rewrite E |]; assumption.
Qed.

(** X2. For n >= 2 the model trained on a single string has at most one
    key, the initial history, and its list is the normalised counter of all
    the tokens of the string that are not skipped: the model of one string
    is a table of word frequencies, whatever n is. *)
Theorem train_lm_single_string :
  forall (s : string) (n : nat),
    2 <= n ->
    train_lm (Song s) n =
    Ok match filter is_token (re_split s) with
       | [] => []
       | toks => [(init_history n, distribution (counts_of toks))]
       end.
Proof.
  intros s n Hn. unfold train_lm. cbn [train_counts].
  rewrite (for_each_filter _ _ (train_token n) is_token (re_split s) []).
  - rewrite train_tokens_counted by (assumption || apply forallb_filter).
    cbn [bind].
    destruct (filter is_token (re_split s)) as [| w toks]; [reflexivity |].
    cbn [fold_left]. change (model_incr (init_history n) w [])
      with [(init_history n, counter_incr w [])].
    rewrite model_incr_same_key.
    change (fold_left (fun c w0 => counter_incr w0 c) toks (counter_incr w []))
      with (counts_of (w :: toks)).
    rewrite normalize_all_eq; [reflexivity |].
    repeat constructor. cbn [snd]. unfold counts_of.
    rewrite counts_total. simpl. lia.
  - intros m w Hw. apply train_token_skipped.
    unfold is_token in Hw. apply negb_false_iff. assumption.
Qed.

Lemma train_lm_single_string_witness :
  train_lm (Song "la la [x] li") 4 =
  Ok match filter is_token (re_split "la la [x] li") with
     | [] => []
     | toks => [(init_history 4, distribution (counts_of toks))]
     end.
Proof.
  apply (train_lm_single_string "la la [x] li" 4). lia.
Defined.

(** ** Songs are counted one by one *)

Lemma observe_words_shift : forall item log0 log h,
  for_each observe_word item (log0 ++ log, h) =
  ('(l', h') <- for_each observe_word item (log, h) ;; Ok (log0 ++ l', h')).
Proof.
  induction item as [| w item IH]; intros log0 log h; [reflexivity |].
  cbn [for_each]. unfold observe_word at 1 3.
  destruct (skipped w); cbn [bind]; [apply IH |].
  destruct (slide h w) as [h1 | e]; cbn [bind]; [| reflexivity].
  rewrite <- app_assoc. apply IH.
Qed.

Lemma observe_song_shift : forall n item log0 log,
  observe_song n (log0 ++ log) item =
  (l' <- observe_song n log item ;; Ok (log0 ++ l')).
Proof.
  intros n item log0 log. unfold observe_song. rewrite observe_words_shift.
  destruct (for_each observe_word item (log, init_history n)) as [[l' h'] | e];
    reflexivity.
Qed.

Lemma observe_songs_shift : forall n items log0 log,
  for_each (observe_song n) items (log0 ++ log) =
  (l' <- for_each (observe_song n) items log ;; Ok (log0 ++ l')).
Proof.
  induction items as [| item items IH]; intros log0 log; [reflexivity |].
  cbn [for_each]. rewrite observe_song_shift.
  destruct (observe_song n log item) as [l1 | e]; cbn [bind]; [apply IH | reflexivity].
Qed.

(** The counts observed in a list of songs are those of its first part
    followed by those of the rest. *)
Lemma observations_app : forall xs ys n log1 log2,
  observations (Songs xs) n = Ok log1 -> observations (Songs ys) n = Ok log2 ->
  observations (Songs (xs ++ ys)) n = Ok (log1 ++ log2).
Proof.
  intros xs ys n log1 log2 H1 H2. cbn [observations] in *.
  rewrite map_app, for_each_app, H1. cbn [bind].
  rewrite <- (app_nil_r log1) at 1. rewrite observe_songs_shift, H2. reflexivity.
Qed.

Lemma model_count_replay : forall log h w,
  model_count (replay log []) h w = count_occ string_dec (words_after h log) w.
Proof.
  intros log h w.
  pose proof (counter_at_replay log [] h) as Hc. cbn [lookup] in Hc.
  pose proof (counts_lookup (words_after h log) [] w) as Hk. cbn [lookup] in Hk.
  rewrite Nat.add_0_l in Hk.
  unfold model_count. rewrite <- Hk, <- Hc.
  destruct (lookup h (replay log [])); reflexivity.
Qed.

Lemma words_after_app : forall h log1 log2,
  words_after h (log1 ++ log2) = words_after h log1 ++ words_after h log2.
Proof.
  intros h log1 log2. unfold words_after. rewrite filter_app, map_app. reflexivity.
Qed.

(** X3. For n >= 2, training on a list of songs counts each song on its own:
    the count of a word after a history in the model of [xs ++ ys] is its
    count in the model of [xs] plus its count in the model of [ys].  No
    history spans two songs, and the order of the songs does not change any
    count. *)
Theorem song_counts_add :
  forall (xs ys : list string) (n : nat),
    2 <= n ->
    exists m1 m2 m12 m21,
      train_counts (Songs xs) n = Ok m1 /\
      train_counts (Songs ys) n = Ok m2 /\
      train_counts (Songs (xs ++ ys)) n = Ok m12 /\
      train_counts (Songs (ys ++ xs)) n = Ok m21 /\
      forall h w,
        model_count m12 h w = model_count m1 h w + model_count m2 h w /\
        model_count m21 h w = model_count m12 h w.
Proof.
  intros xs ys n Hn.
  destruct (train_counts_ok (Songs xs) n Hn) as (m1 & E1 & _).
  destruct (train_counts_ok (Songs ys) n Hn) as (m2 & E2 & _).
  destruct (train_counts_ok (Songs (xs ++ ys)) n Hn) as (m12 & E12 & _).
  destruct (train_counts_ok (Songs (ys ++ xs)) n Hn) as (m21 & E21 & _).
  exists m1, m2, m12, m21. repeat (split; [assumption |]).
  destruct (train_counts_observed _ _ _ E1) as (l1 & O1 & ->).
  destruct (train_counts_observed _ _ _ E2) as (l2 & O2 & ->).
  destruct (train_counts_observed _ _ _ E12) as (l12 & O12 & ->).
  destruct (train_counts_observed _ _ _ E21) as (l21 & O21 & ->).
  rewrite (observations_app xs ys n l1 l2 O1 O2) in O12.
  rewrite (observations_app ys xs n l2 l1 O2 O1) in O21.
  inversion O12; subst l12. inversion O21; subst l21.
  intros h w. rewrite !model_count_replay, !words_after_app, !count_occ_app.
  split; lia.
Qed.

Lemma song_counts_add_witness :
  exists m1 m2 m12 m21,
    train_counts (Songs ["I love cats"]) 3 = Ok m1 /\
    train_counts (Songs ["I love dogs"; "I love"]) 3 = Ok m2 /\
    train_counts (Songs (["I love cats"] ++ ["I love dogs"; "I love"])) 3 = Ok m12 /\
    train_counts (Songs (["I love dogs"; "I love"] ++ ["I love cats"])) 3 = Ok m21 /\
    forall h w,
      model_count m12 h w = model_count m1 h w + model_count m2 h w /\
      model_count m21 h w = model_count m12 h w.
Proof.
  apply (song_counts_add ["I love cats"] ["I love dogs"; "I love"] 3). lia.
Defined.

(** ** The history of a bigram model *)

Lemma slide_one_word : forall a b,
  is_word a = true -> slide a b = Ok (" " +++ b).
Proof.
  intros a b Ha. rewrite slide_eq.
  destruct (last_char_word a Ha) as (c & E & Hc). rewrite E; cbn [bind]. rewrite Hc.
  apply is_word_spec in Ha. destruct Ha as [_ Ha].
  rewrite (split_on_word a Ha). reflexivity.
Qed.

Lemma slide_space_word : forall b c,
  is_word b = true -> slide (" " +++ b) c = Ok (Str.join " " [b; c]).
Proof.
  intros b c Hb. rewrite slide_eq.
  destruct (last_char_word b Hb) as (x & E & Hx).
  apply is_word_spec in Hb. destruct Hb as [Hne Hsp].
  rewrite last_char_append by assumption. rewrite E; cbn [bind]. rewrite Hx.
  change (" " +++ b) with ("" +++ String Str.space b).
  rewrite split_on_append_space by reflexivity.
  rewrite (split_on_word b Hsp). reflexivity.
Qed.

Lemma slide_two_words : forall x y w,
  is_word x = true -> is_word y = true ->
  slide (Str.join " " [x; y]) w = Ok (Str.join " " [y; w]).
Proof.
  intros x y w Hx Hy.
  apply (slide_window x [y] w); [discriminate | repeat constructor; assumption].
Qed.

(** X4. With n = 2 the history does not stay one word long.  Once three
    words have been slid in, it is the same string as with n = 3: two words
    joined by a space.  So from the fourth word of a song on, a model asked
    for with n = 2 counts and is read under two-word histories. *)
Theorem bigram_history_holds_two_words :
  forall (a b c : string) (rest : list string),
    Forall (fun w => is_word w = true) (a :: b :: c :: rest) ->
    exists h,
      for_each slide (a :: b :: c :: rest) (init_history 2) = Ok h /\
      for_each slide (a :: b :: c :: rest) (init_history 3) = Ok h /\
      is_history 3 h = true /\
      is_history 2 h = false.
Proof.
  intros a b c rest Hall.
  inversion Hall as [| ? ? Ha Hall1]; subst.
  inversion Hall1 as [| ? ? Hb Hall2]; subst.
  inversion Hall2 as [| ? ? Hc Hrest]; subst.
  assert (E2 : for_each slide [a; b; c] (init_history 2) = Ok (Str.join " " [b; c])).
  { cbn [for_each]. change (slide (init_history 2) a) with (Ok ("" +++ a)).
    cbn [bind String.append]. rewrite (slide_one_word a b Ha). cbn [bind].
    rewrite (slide_space_word b c Hb). reflexivity. }
  assert (E3 : for_each slide [a; b; c] (init_history 3) = Ok (Str.join " " [b; c])).
  { cbn [for_each]. change (init_history 3) with (Str.repeat_str "~ " 2).
    rewrite (slide_init 0 a). cbn [bind repeat app].
    rewrite (slide_two_words "~" a b eq_refl Ha). cbn [bind].
    rewrite (slide_two_words a b c Ha Hb). reflexivity. }
  change (a :: b :: c :: rest) with ([a; b; c] ++ rest).
  rewrite !for_each_app, E2, E3. cbn [bind].
  destruct (for_each_inv _ _ slide (fun h => is_history 3 h = true) rest
              (Str.join " " [b; c])) as (h & E & Hh).
  - apply is_history_join; [discriminate | repeat constructor; assumption | reflexivity].
  - intros h w Hh Hw. rewrite Forall_forall in Hrest.
    destruct (slide_hist 3 h w (le_n 3) (or_intror Hh) (Hrest w Hw)) as (h' & E' & Hh' & _).
    eauto.
  - exists h. split; [assumption |]. split; [assumption |]. split; [assumption |].
    unfold is_history in Hh |- *.
    apply andb_true_iff in Hh. destruct Hh as [Hlen _]. apply Nat.eqb_eq in Hlen.
    rewrite Hlen. reflexivity.
Qed.

Lemma bigram_history_holds_two_words_witness :
  exists h,
    for_each slide ["I"; "love"; "cats"; "and"] (init_history 2) = Ok h /\
    for_each slide ["I"; "love"; "cats"; "and"] (init_history 3) = Ok h /\
    is_history 3 h = true /\
    is_history 2 h = false.
Proof.
  apply (bigram_history_holds_two_words "I" "love" "cats" ["and"]).
  repeat constructor.
Defined.

(** ** What [generate_word] can return *)

Lemma searchsorted_In : forall a p u acc w,
  searchsorted u acc a p = Ok w -> In w a.
Proof.
  induction a as [| x a IH]; intros [| q p] u acc w H; try discriminate.
  cbn [searchsorted] in H.
  destruct (Qlt_le_dec u (acc + q)).
  - inversion H. left. reflexivity.
  - right. eapply IH. eassumption.
Qed.

Lemma np_random_choice_In : forall u a p w,
  np_random_choice u a p = Ok w -> In w a.
Proof.
  intros u a p w H. unfold np_random_choice in H.
  destruct (length a =? 0)%nat; [discriminate |].
  destruct (negb (length a =? length p)%nat); [discriminate |].
  destruct (existsb _ p); [discriminate |].
  destruct (negb (Qeq_bool (sumQ p) 1)); [discriminate |].
  eapply searchsorted_In. eassumption.
Qed.

Lemma generate_word_cases : forall rng lm history drawn w drawn',
  generate_word rng lm history drawn = Ok (w, drawn') ->
  (lm_get lm history = None /\ w = "~" /\ drawn' = drawn) \/
  (exists pairs, lm_get lm history = Some pairs /\
                 In w (map fst pairs) /\ drawn' = S drawn).
Proof.
  intros rng lm history drawn w drawn' H. unfold generate_word in H.
  destruct (lm_get lm history) as [pairs |].
  - right. exists pairs. split; [reflexivity |].
    destruct pairs as [| p pairs]; [discriminate |].
    cbn [unzip] in H. apply bind_ok in H. destruct H as (v & E & H).
    inversion H; subst. split; [| reflexivity].
    eapply np_random_choice_In. eassumption.
  - left. inversion H. auto.
Qed.

(** X5. Whatever the model and the draws, a word that [generate_word]
    returns is either the fallback "~", returned without drawing when the
    history is not a key, or one of the words listed under the history,
    returned after exactly one draw.  It never returns a word from another
    history's list. *)
Theorem generate_word_returns_listed_word :
  forall (rng : nat -> Q) (lm : language_model) (history : string)
         (drawn : nat) (w : string) (drawn' : nat),
    generate_word rng lm history drawn = Ok (w, drawn') ->
    (lm_get lm history = None /\ w = "~" /\ drawn' = drawn) \/
    (exists pairs, lm_get lm history = Some pairs /\
                   In w (map fst pairs) /\ drawn' = S drawn).
Proof.
  exact generate_word_cases.
Qed.

Lemma generate_word_returns_listed_word_witness :
  (lm_get love_lm "I love" = None /\ "dogs" = "~" /\ 3 = 2) \/
  (exists pairs, lm_get love_lm "I love" = Some pairs /\
                 In "dogs" (map fst pairs) /\ 3 = S 2).
Proof.
  apply (generate_word_returns_listed_word (fun _ => 1 # 2)%Q love_lm "I love" 2 "dogs" 3).
  vm_compute. reflexivity.
Defined.

(** ** Generation with n = 1 *)

Lemma slide_empty_history : forall w, slide "" w = Raise IndexError.
Proof. reflexivity. Qed.

Lemma gen_step_empty_history : forall rng lm text drawn i,
  exists e, gen_step rng lm (mk_gen_state "" text drawn) i = Raise e.
Proof.
  intros rng lm text drawn i. unfold gen_step. cbn [gs_history gs_drawn gs_text].
  destruct (generate_word rng lm "" drawn) as [[w d] | e]; cbn [bind].
  - exists IndexError. reflexivity.
  - exists e. reflexivity.
Qed.

(** X6. Asked for no word, the generator prints an empty line, for every n.
    With n = 1 it never produces a word: asked for one word or more it
    raises in the first round, whatever the model, the original and the
    draws; when the empty history is not a key of the model the exception is
    the IndexError of [history[-1]]. *)
Theorem generate_text_unigram_raises :
  forall (rng : nat -> Q) (original : lyrics) (lm : language_model) (n k : nat),
    generate_text rng original lm n 0 = Ok (print "") /\
    (exists e, generate_text rng original lm 1 (S k) = Raise e) /\
    (lm_get lm "" = None ->
     generate_text rng original lm 1 (S k) = Raise IndexError).
Proof.
  intros rng original lm n k. split; [reflexivity |].
  unfold generate_text, gen_loop. change (init_history 1) with "".
  cbn [seq for_each]. split.
  - destruct (gen_step_empty_history rng lm [] 0 0) as (e & E).
    rewrite E. exists e. reflexivity.
  - intros H. unfold gen_step. cbn [gs_history gs_drawn gs_text].
    rewrite (generate_word_fallback rng lm "" 0 H). reflexivity.
Qed.

Lemma generate_text_unigram_raises_witness :
  generate_text (fun _ => 0%Q) love_songs [] 3 0 = Ok (print "") /\
  (exists e, generate_text (fun _ => 0%Q) love_songs [] 1 (S 4) = Raise e) /\
  (lm_get [] "" = None ->
   generate_text (fun _ => 0%Q) love_songs [] 1 (S 4) = Raise IndexError).
Proof.
  apply (generate_text_unigram_raises (fun _ => 0%Q) love_songs [] 3 4).
Defined.

(** ** Parentheses at the ends of a word *)

Lemma drop_last_snoc : forall w c, Str.drop_last (w +++ String c "") = w.
Proof.
  induction w as [| d w IH]; intros c; [reflexivity |].
  cbn [String.append Str.drop_last].
  destruct (w +++ String c "") eqn:E.
  - destruct w; discriminate.
  - rewrite <- E, IH. reflexivity.
Qed.

Lemma contains_char_snoc : forall w c, Str.contains_char c (w +++ String c "") = true.
Proof.
  intros w c. rewrite StrFacts.contains_char_append. cbn [Str.contains_char].
  rewrite Ascii.eqb_refl. apply orb_true_r.
Qed.

Lemma strip_words_wrapped : forall w,
  paren_free w = true ->
  strip_close_word (strip_open_word w) = w /\
  strip_close_word (strip_open_word ("(" +++ w)) = w /\
  strip_close_word (strip_open_word (w +++ ")")) = w /\
  strip_close_word (strip_open_word ("(" +++ w +++ ")")) = w.
Proof.
  intros w H. unfold paren_free in H.
  apply andb_true_iff in H. destruct H as [Ho Hc].
  apply negb_true_iff in Ho. apply negb_true_iff in Hc.
  assert (Hoc : Str.contains_char "(" (w +++ ")") = false).
  { rewrite StrFacts.contains_char_append, Ho. reflexivity. }
  unfold strip_open_word, strip_close_word.
  split; [rewrite Ho, Hc; reflexivity |].
  split.
  { cbn [String.append Str.contains_char]. rewrite Ascii.eqb_refl. cbn [orb Str.drop_first].
    rewrite Hc. reflexivity. }
  split.
  { rewrite Hoc, contains_char_snoc. apply drop_last_snoc. }
  cbn [String.append Str.contains_char]. rewrite Ascii.eqb_refl. cbn [orb Str.drop_first].
  rewrite contains_char_snoc. apply drop_last_snoc.
Qed.

(** X7. On words whose only parentheses are one "(" in front and one ")"
    at the end, the two passes do what their comments say: a word without
    parentheses is left as it is, and "(w", "w)" and "(w)" all become "w". *)
Theorem strip_passes_unwrap_words :
  forall ws : list string,
    forallb paren_free ws = true ->
    (t <- strip_open ws ;; strip_close t) = Ok ws /\
    (t <- strip_open (map (fun w => "(" +++ w) ws) ;; strip_close t) = Ok ws /\
    (t <- strip_open (map (fun w => w +++ ")") ws) ;; strip_close t) = Ok ws /\
    (t <- strip_open (map (fun w => "(" +++ w +++ ")") ws) ;; strip_close t) = Ok ws.
Proof.
  intros ws H. rewrite forallb_forall in H.
  rewrite !strip_open_map. cbn [bind]. rewrite !strip_close_map, !map_map.
  repeat split; f_equal; rewrite <- (map_id ws) at 2; apply map_ext_in;
    intros w Hw; apply (strip_words_wrapped w (H w Hw)).
Qed.

Lemma strip_passes_unwrap_words_witness :
  (t <- strip_open ["shine"; "on"] ;; strip_close t) = Ok ["shine"; "on"] /\
  (t <- strip_open (map (fun w => "(" +++ w) ["shine"; "on"]) ;; strip_close t)
    = Ok ["shine"; "on"] /\
  (t <- strip_open (map (fun w => w +++ ")") ["shine"; "on"]) ;; strip_close t)
    = Ok ["shine"; "on"] /\
  (t <- strip_open (map (fun w => "(" +++ w +++ ")") ["shine"; "on"]) ;; strip_close t)
    = Ok ["shine"; "on"].
Proof.
  apply (strip_passes_unwrap_words ["shine"; "on"]). reflexivity.
Defined.

(** ** Line breaks *)

Lemma recover_lines_song_map : forall s w0 rest,
  recover_lines (Song s) (w0 :: rest) =
  Ok (w0 :: map (fun w => if Str.contains (nl +++ w) s then nl +++ w else w) rest).
Proof.
  intros s w0 rest. unfold recover_lines.
  replace (length (w0 :: rest) - 1) with (length rest) by (simpl; lia).
  apply (for_each_in_place (recover_at (Song s))
           (fun w => if Str.contains (nl +++ w) s then nl +++ w else w)
           ) with (done := [w0]).
  intros done w rest'. cbn [recover_at]. rewrite get_item_app. cbn [bind].
  destruct (Str.contains (nl +++ w) s); [apply set_item_app | reflexivity].
Qed.

Lemma recover_in_song_step : forall items text i t item t',
  In item items ->
  (length t = length text /\
   forall j w w', nth_error text j = Some w -> nth_error t j = Some w' ->
                  recovered (Songs items) w w') ->
  recover_in_song i t item = Ok t' ->
  (length t' = length text /\
   forall j w w', nth_error text j = Some w -> nth_error t' j = Some w' ->
                  recovered (Songs items) w w') /\
  (i <> 0 -> nth_error t' 0 = nth_error t 0).
Proof.
  intros items text i t item t' Hitem [Hlen Hinv] H. unfold recover_in_song in H.
  unfold get_item in H. destruct (nth_error t i) as [v |] eqn:N; [| discriminate].
  cbn [bind] in H.
  destruct (Str.contains (nl +++ v) item) eqn:C;
    [| inversion H; subst; split; [split |]; auto].
  destruct v as [| c v]; [discriminate |]. cbn [Str.first_char bind] in H.
  destruct (Ascii.eqb c Str.newline) eqn:Ec; cbn [negb] in H;
    [inversion H; subst; split; [split |]; auto |].
  split; [split |].
  - rewrite <- Hlen. eapply set_item_length; eassumption.
  - intros j w w' Hw Hw'. rewrite (set_item_nth _ _ _ _ j H) in Hw'.
    destruct (Nat.eqb_spec j i) as [-> | _]; [| eauto].
    inversion Hw'; subst w'. clear Hw'.
    destruct (Hinv i w (String c v) Hw N) as [E | [E _]].
    + subst w. right. split; [reflexivity |]. exists item. split; assumption.
    + exfalso. unfold nl in E. cbn [String.append] in E.
      assert (Hc : c = Str.newline) by congruence.
      rewrite Hc, Ascii.eqb_refl in Ec. discriminate.
  - intros Hi. rewrite (set_item_nth _ _ _ _ 0 H).
    destruct (Nat.eqb_spec 0 i); [congruence | reflexivity].
Qed.

(** X8. When the line-break pass returns, it returns as many words as it
    got; the first word is as it was; and every other word is either as it
    was or has one newline put in front of it, the latter only if the word
    preceded by a newline occurs somewhere in the original (in the string,
    or in one of the songs of the list). *)
Theorem recover_lines_only_prefixes :
  forall (original : lyrics) (text text' : list string),
    recover_lines original text = Ok text' ->
    length text' = length text /\
    nth_error text' 0 = nth_error text 0 /\
    forall j w w', nth_error text j = Some w -> nth_error text' j = Some w' ->
                   recovered original w w'.
Proof.
  intros [s | items] text text' H.
  - destruct text as [| w0 rest]; [inversion H; subst; repeat split; intros [| j] w w' A B; discriminate |].
    rewrite recover_lines_song_map in H. inversion H; subst text'. clear H.
    split; [cbn [length]; rewrite length_map; reflexivity |].
    split; [reflexivity |].
    intros [| j] w w' Hw Hw'; cbn [nth_error] in Hw, Hw'.
    + left. congruence.
    + rewrite nth_error_map, Hw in Hw'.
      assert (Ew : w' = if Str.contains (nl +++ w) s then nl +++ w else w)
        by (inversion Hw'; reflexivity).
      unfold recovered, follows_newline. rewrite Ew.
      destruct (Str.contains (nl +++ w) s);
        [right; split; reflexivity | left; reflexivity].
  - unfold recover_lines in H.
    assert (G : (length text' = length text /\
                 forall j w w', nth_error text j = Some w -> nth_error text' j = Some w' ->
                                recovered (Songs items) w w') /\
                nth_error text' 0 = nth_error text 0).
    { apply (for_each_partial _ _ (recover_at (Songs items))
               (fun t => (length t = length text /\
                          forall j w w', nth_error text j = Some w ->
                                         nth_error t j = Some w' ->
                                         recovered (Songs items) w w') /\
                         nth_error t 0 = nth_error text 0)
               (seq 1 (length text - 1)) text text'); [| | assumption].
      - split; [split; [reflexivity |] | reflexivity].
        intros j w w' A B. left. congruence.
      - intros t i t' Ht Hi E. apply in_seq in Hi. cbn [recover_at] in E.
        apply (for_each_partial _ _ (recover_in_song i)
                 (fun t => (length t = length text /\
                            forall j w w', nth_error text j = Some w ->
                                           nth_error t j = Some w' ->
                                           recovered (Songs items) w w') /\
                           nth_error t 0 = nth_error text 0)
                 items t t'); [assumption | | assumption].
        intros t1 item t2 [Hinv H0] Hitem E1.
        destruct (recover_in_song_step items text i t1 item t2 Hitem Hinv E1) as [Hinv' H0'].
        split; [assumption |]. rewrite H0' by lia. assumption. }
    destruct G as [[Hlen Hinv] H0]. auto.
Qed.

Lemma recover_lines_only_prefixes_witness :
  length ["oh"; nl +++ "la"; "li"] = length ["oh"; "la"; "li"] /\
  nth_error ["oh"; nl +++ "la"; "li"] 0 = nth_error ["oh"; "la"; "li"] 0 /\
  forall j w w', nth_error ["oh"; "la"; "li"] j = Some w ->
                 nth_error ["oh"; nl +++ "la"; "li"] j = Some w' ->
                 recovered (Songs ["oh" +++ nl +++ "la la"; "li"]) w w'.
Proof.
  apply (recover_lines_only_prefixes (Songs ["oh" +++ nl +++ "la la"; "li"])
           ["oh"; "la"; "li"] ["oh"; nl +++ "la"; "li"]).
  vm_compute. reflexivity.
Defined.

(** ** From the corpus to the generated text *)

Lemma model_incr_words : forall (Q : string -> Prop) h w m,
  Q w -> model_words Q m -> model_words Q (model_incr h w m).
Proof.
  intros Q h w m Hw Hm. unfold model_incr, model_words.
  assert (Hc : forall c, Forall (fun p => Q (fst p)) c ->
                         Forall (fun p => Q (fst p)) (counter_incr w c)).
  { intros c Hc. unfold counter_incr.
    apply upsert_Forall with (P := fun k _ => Q k); auto. }
  apply upsert_Forall with (P := fun _ c => Forall (fun p => Q (fst p)) c); auto.
Qed.

Lemma train_word_words : forall (Q : string -> Prop) st w st',
  (skipped w = false -> Q w) -> model_words Q (fst st) ->
  train_word st w = Ok st' -> model_words Q (fst st').
Proof.
  intros Q [m h] w st' Hw Hm H. unfold train_word in H. cbn [fst] in Hm.
  destruct (skipped w); [inversion H; assumption |].
  apply bind_ok in H. destruct H as (h' & _ & H). inversion H.
  apply model_incr_words; auto.
Qed.

(** Every word counted by training is a token of the corpus that is not
    skipped. *)
Lemma train_counts_words : forall l n m,
  train_counts l n = Ok m ->
  model_words (fun w => In w (corpus_tokens l) /\ skipped w = false) m.
Proof.
  intros [s | items] n m H; cbn [train_counts corpus_tokens] in *.
  - apply (for_each_partial _ _ (train_token n)
             (model_words (fun w => In w (re_split s) /\ skipped w = false))
             (re_split s) [] m); [constructor | | assumption].
    intros m0 w m1 Hm0 Hw E. unfold train_token in E.
    apply bind_ok in E. destruct E as ([m2 h2] & E & E2). inversion E2; subst.
    apply (train_word_words _ (m0, init_history n) w (m1, h2)); auto.
  - apply (for_each_partial _ _ (train_song n)
             (model_words (fun w => In w (flat_map re_split items) /\ skipped w = false))
             (map re_split items) [] m); [constructor | | assumption].
    intros m0 item m1 Hm0 Hitem E. unfold train_song in E.
    apply bind_ok in E. destruct E as ([m2 h2] & E & E2). inversion E2; subst.
    apply in_map_iff in Hitem. destruct Hitem as (s & <- & Hs).
    apply (for_each_partial _ _ train_word
             (fun st => model_words
                          (fun w => In w (flat_map re_split items) /\ skipped w = false)
                          (fst st))
             (re_split s) (m0, init_history n) (m1, h2)); [assumption | | assumption].
    intros st w st' Hst Hw E'.
    apply (train_word_words _ st w st'); [| assumption | assumption].
    intros Hsk. split; [| assumption].
    apply in_flat_map. exists s. split; assumption.
Qed.

Lemma trained_lm_words : forall l n lm,
  2 <= n -> train_lm l n = Ok lm ->
  lm_words (fun w => In w (corpus_tokens l) /\ skipped w = false) lm.
Proof.
  intros l n lm Hn H.
  destruct (train_lm_eq l n Hn) as (m & Em & _ & Elm).
  rewrite Elm in H. inversion H; subst lm. clear H.
  apply train_counts_words in Em. unfold model_words in Em. unfold lm_words.
  rewrite Forall_forall in Em |- *. intros e He.
  apply in_map_iff in He. destruct He as (e0 & <- & He0). cbn [snd].
  specialize (Em e0 He0). rewrite Forall_forall in Em |- *.
  intros [w q] Hwq. cbn [fst].
  apply distribution_words in Hwq. apply in_map_iff in Hwq.
  destruct Hwq as (p & <- & Hp). apply (Em p Hp).
Qed.

(** The generation loop only keeps "~" and words of the model. *)
Lemma gen_loop_words : forall (Q : string -> Prop) rng lm n k st,
  lm_words Q lm -> gen_loop rng lm n k = Ok st ->
  Forall (fun w => w = "~" \/ Q w) (gs_text st).
Proof.
  intros Q rng lm n k st Hlm H. unfold gen_loop in H.
  apply (for_each_partial _ _ (gen_step rng lm)
           (fun st => Forall (fun w => w = "~" \/ Q w) (gs_text st))
           (seq 0 k) (mk_gen_state (init_history n) [] 0) st);
    [constructor | | assumption].
  intros [h text d] i st' Ht _ E. cbn [gs_text] in Ht. unfold gen_step in E.
  cbn [gs_history gs_text gs_drawn] in E.
  apply bind_ok in E. destruct E as ([w d'] & Ew & E).
  apply bind_ok in E. destruct E as (h' & _ & E). inversion E; subst st'.
  cbn [gs_text]. apply Forall_app. split; [assumption |].
  constructor; [| constructor].
  destruct (generate_word_cases rng lm h d w d' Ew) as [(_ & -> & _) | (pairs & G & Hin & _)];
    [left; reflexivity | right].
  apply lm_get_In in G. unfold lm_words in Hlm. rewrite Forall_forall in Hlm.
  specialize (Hlm _ G). cbn [snd] in Hlm. rewrite Forall_forall in Hlm.
  apply in_map_iff in Hin. destruct Hin as (p & <- & Hp). apply (Hlm p Hp).
Qed.

(** X9. Training and generation fit together.  For n >= 2, any corpus and
    draws below 1, training returns a model; the generation loop on that
    model returns k words, each of them "~" or a token of the corpus that
    training did not skip; and with a single string as the original,
    [generate_text] prints a line and does not raise. *)
Theorem trained_model_generates_corpus_words :
  forall (l : lyrics) (original : string) (n k : nat) (rng : nat -> Q),
    2 <= n ->
    (forall i, rng i < 1)%Q ->
    exists lm st out,
      train_lm l n = Ok lm /\
      gen_loop rng lm n k = Ok st /\
      length (gs_text st) = k /\
      Forall (fun w => w = "~" \/ (In w (corpus_tokens l) /\ skipped w = false))
             (gs_text st) /\
      generate_text rng (Song original) lm n k = Ok out.
Proof.
  intros l original n k rng Hn Hrng.
  destruct (trained_model_valid l n Hn) as (lm & Elm & Hv & _).
  destruct (gen_loop_ok rng lm n k Hn Hv Hrng) as (st & Est & _ & Hlen).
  destruct (recover_lines_song original
              (map strip_close_word (map strip_open_word (gs_text st)))) as (t3 & E3).
  exists lm, st, (print (Str.join " " t3)).
  split; [assumption |]. split; [assumption |]. split; [assumption |].
  split.
  - apply (gen_loop_words _ rng lm n k st); [| assumption].
    apply (trained_lm_words l n lm Hn Elm).
  - unfold generate_text, post_process. rewrite Est. cbn [bind].
    rewrite strip_open_map. cbn [bind]. rewrite strip_close_map. cbn [bind].
    rewrite E3. reflexivity.
Qed.

Lemma trained_model_generates_corpus_words_witness :
  exists lm st out,
    train_lm love_songs 3 = Ok lm /\
    gen_loop (fun _ => 1 # 3)%Q lm 3 9 = Ok st /\
    length (gs_text st) = 9 /\
    Forall (fun w => w = "~" \/ (In w (corpus_tokens love_songs) /\ skipped w = false))
           (gs_text st) /\
    generate_text (fun _ => 1 # 3)%Q (Song "I love cats") lm 3 9 = Ok out.
Proof.
  apply (trained_model_generates_corpus_words love_songs "I love cats" 3 9
           (fun _ => 1 # 3)%Q).
  - lia.
  - intros i. reflexivity.
Defined.

(** ** After the fallback *)

Lemma has_suffix_spec : forall suf s,
  has_suffix suf s = true <-> exists p, s = p +++ suf.
Proof.
  intros suf s. split.
  - induction s as [| c s IH]; cbn [has_suffix]; intros H.
    + rewrite orb_false_r in H. apply String.eqb_eq in H. exists "". subst. reflexivity.
    + apply orb_true_iff in H. destruct H as [H | H].
      * apply String.eqb_eq in H. exists "". subst. reflexivity.
      * destruct (IH H) as (p & ->). exists (String c p). reflexivity.
  - intros (p & ->). induction p as [| c p IH]; cbn [String.append].
    + destruct suf; cbn [has_suffix]; rewrite String.eqb_refl; reflexivity.
    + cbn [has_suffix]. rewrite IH. apply orb_true_r.
Qed.

Lemma tilde_last_char : forall h,
  tilde_last h = true -> Str.last_char h = Ok "~"%char.
Proof.
  intros h H. unfold tilde_last in H. apply orb_true_iff in H.
  destruct H as [H | H].
  - apply String.eqb_eq in H. subst. reflexivity.
  - apply has_suffix_spec in H. destruct H as (p & ->).
    rewrite last_char_append by discriminate. reflexivity.
Qed.

(** Sliding "~" into a history that does not end with a space. *)
Lemma slide_tilde : forall h c,
  Str.last_char h = Ok c -> Ascii.eqb c Str.space = false ->
  exists h', slide h "~" = Ok h' /\ tilde_last h' = true.
Proof.
  intros h c E Hc. rewrite slide_eq, E. cbn [bind]. rewrite Hc.
  eexists. split; [reflexivity |].
  unfold tilde_last. apply orb_true_iff. right.
  apply has_suffix_spec. eexists. reflexivity.
Qed.

Lemma no_tilde_key_get : forall lm h,
  no_tilde_key lm = true -> tilde_last h = true -> lm_get lm h = None.
Proof.
  intros lm h Hlm Hh. destruct (lm_get lm h) as [pairs |] eqn:G; [| reflexivity].
  apply lm_get_In in G. unfold no_tilde_key in Hlm.
  rewrite forallb_forall in Hlm. specialize (Hlm _ G). cbn [fst] in Hlm.
  rewrite Hh in Hlm. discriminate.
Qed.

(** X10. The fallback is absorbing.  In a model none of whose keys ends
    with the word "~", once the history does not end with a space and is not
    a key, every later word is "~" and no draw is made: the generator never
    finds its way back to a known history. *)
Theorem fallback_is_absorbing :
  forall (rng : nat -> Q) (lm : language_model) (k a : nat) (st : gen_state)
         (c : ascii),
    no_tilde_key lm = true ->
    lm_get lm (gs_history st) = None ->
    Str.last_char (gs_history st) = Ok c ->
    Ascii.eqb c Str.space = false ->
    exists h',
      for_each (gen_step rng lm) (seq a k) st =
      Ok (mk_gen_state h' (gs_text st ++ repeat "~" k) (gs_drawn st)).
Proof.
  intros rng lm k. induction k as [| k IH]; intros a [h text d] c Hlm Hget Hlast Hc;
    cbn [gs_history gs_text gs_drawn] in *.
  - exists h. cbn [seq for_each repeat]. rewrite app_nil_r. reflexivity.
  - cbn [seq for_each]. unfold gen_step at 1. cbn [gs_history gs_text gs_drawn].
    rewrite (generate_word_fallback rng lm h d Hget). cbn [bind].
    destruct (slide_tilde h c Hlast Hc) as (h1 & E1 & Ht1).
    rewrite E1. cbn [bind].
    destruct (IH (S a) (mk_gen_state h1 (text ++ ["~"]) d) "~"%char Hlm) as (h' & E');
      cbn [gs_history gs_text gs_drawn].
    + apply no_tilde_key_get; assumption.
    + apply tilde_last_char. assumption.
    + reflexivity.
    + exists h'. rewrite E'. cbn [gs_text gs_drawn].
      rewrite <- app_assoc. reflexivity.
Qed.

Lemma fallback_is_absorbing_witness :
  exists h',
    for_each (gen_step (fun _ => 0%Q) love_lm) (seq 4 6)
             (mk_gen_state "love dogs" ["I"; "love"; "dogs"] 3) =
    Ok (mk_gen_state h' (["I"; "love"; "dogs"] ++ repeat "~" 6) 3).
Proof.
  apply (fallback_is_absorbing (fun _ => 0%Q) love_lm 6 4
           (mk_gen_state "love dogs" ["I"; "love"; "dogs"] 3) "s"%char);
    reflexivity.
Defined.

(** ** Trained keys do not end with the fallback *)

Lemma split_on_append_sep : forall sep a c b,
  sep c = true ->
  Str.split_on sep (a +++ String c b) = Str.split_on sep a ++ Str.split_on sep b.
Proof.
  intros sep a c b Hc. induction a as [| d a IH]; cbn [String.append Str.split_on].
  - rewrite Hc. reflexivity.
  - rewrite IH. destruct (sep d); [reflexivity |].
    destruct (Str.split_on sep a) as [| w ws] eqn:E;
      [exfalso; eapply StrFacts.split_on_nonnil; eassumption | reflexivity].
Qed.

Lemma last_piece_tilde : forall h,
  tilde_last h = true -> last (Str.split_on at_space h) "" = "~".
Proof.
  intros h H. unfold tilde_last in H. apply orb_true_iff in H.
  destruct H as [H | H].
  - apply String.eqb_eq in H. subst. reflexivity.
  - apply has_suffix_spec in H. destruct H as (p & ->).
    change (p +++ " ~") with (p +++ String Str.space "~").
    rewrite split_on_append_sep by reflexivity. apply last_last.
Qed.

Lemma last_piece_after_space : forall x w,
  Str.contains_char Str.space w = false ->
  last (Str.split_on at_space (x +++ " " +++ w)) "" = w.
Proof.
  intros x w Hw. change (x +++ " " +++ w) with (x +++ String Str.space w).
  rewrite split_on_append_sep by reflexivity.
  rewrite (split_on_word w Hw). apply last_last.
Qed.

Lemma split_ends_with_space : forall h,
  Str.last_char h = Ok Str.space ->
  exists l, l <> [] /\ Str.split_on at_space h = l ++ [""].
Proof.
  induction h as [| c h IH]; intros H; [discriminate |].
  destruct h as [| d h'].
  - cbn [Str.last_char] in H. inversion H; subst c. exists [""]. split; [discriminate | reflexivity].
  - destruct IH as (l & Hl & E); [exact H |].
    cbn [Str.split_on] in E |- *. cbn [Str.split_on]. rewrite E.
    destruct (at_space c).
    + exists ("" :: l). split; [discriminate | reflexivity].
    + destruct l as [| w l]; [congruence |].
      exists (String c w :: l). split; [discriminate | reflexivity].
Qed.

(** After a slide with a word without a space, the last piece of the
    history is that word. *)
Lemma slide_last_piece : forall h w h',
  Str.contains_char Str.space w = false ->
  slide h w = Ok h' -> last (Str.split_on at_space h') "" = w.
Proof.
  intros h w h' Hw H. rewrite slide_eq in H.
  apply bind_ok in H. destruct H as (c & E & H).
  destruct (Ascii.eqb_spec c Str.space) as [-> | _]; inversion H; subst h'; clear H.
  - destruct (split_ends_with_space h E) as ([| x l] & Hl & ->); [congruence |].
    cbn [app tl]. destruct l as [| y l].
    + cbn [app Str.join String.append]. rewrite (split_on_word w Hw). reflexivity.
    + rewrite join_snoc by discriminate. rewrite !StrFacts.append_assoc.
      cbn [String.append]. apply last_piece_after_space. assumption.
  - apply last_piece_after_space. assumption.
Qed.

Lemma train_word_no_tilde : forall st w st',
  (skipped w = false -> Str.contains_char Str.space w = false /\ w <> "~") ->
  (Forall (fun e => tilde_last (fst e) = false) (fst st) /\ tilde_last (snd st) = false) ->
  train_word st w = Ok st' ->
  Forall (fun e => tilde_last (fst e) = false) (fst st') /\ tilde_last (snd st') = false.
Proof.
  intros [m h] w st' Hw [Hm Hh] H. cbn [fst snd] in Hm, Hh. unfold train_word in H.
  destruct (skipped w); [inversion H; split; assumption |].
  destruct (Hw eq_refl) as [Hsp Hne].
  apply bind_ok in H. destruct H as (h' & E & H). inversion H; subst st'. cbn [fst snd].
  split.
  - unfold model_incr.
    apply upsert_Forall with (P := fun k (_ : counter) => tilde_last k = false); auto.
  - destruct (tilde_last h') eqn:T; [| reflexivity].
    apply last_piece_tilde in T. rewrite (slide_last_piece h w h' Hsp E) in T.
    contradiction.
Qed.

Lemma init_history_no_tilde : forall n, tilde_last (init_history n) = false.
Proof.
  intros n. destruct (tilde_last (init_history n)) eqn:T; [| reflexivity].
  apply tilde_last_char in T. unfold init_history in T.
  destruct (n - 1) as [| k]; [discriminate |].
  rewrite init_history_last in T. discriminate.
Qed.

Lemma train_counts_no_tilde : forall l n m,
  ~ In "~" (corpus_tokens l) ->
  train_counts l n = Ok m -> Forall (fun e => tilde_last (fst e) = false) m.
Proof.
  intros l n m Hno H.
  assert (Htok : forall w, In w (corpus_tokens l) ->
            skipped w = false -> Str.contains_char Str.space w = false /\ w <> "~").
  { intros w Hw _. split; [| intros ->; contradiction].
    destruct l as [s | items]; cbn [corpus_tokens] in Hw.
    - eapply re_split_spacefree; eassumption.
    - apply in_flat_map in Hw. destruct Hw as (s & _ & Hw).
      eapply re_split_spacefree; eassumption. }
  destruct l as [s | items]; cbn [train_counts corpus_tokens] in *.
  - apply (for_each_partial _ _ (train_token n)
             (Forall (fun e => tilde_last (fst e) = false)) (re_split s) [] m);
      [constructor | | assumption].
    intros m0 w m1 Hm0 Hw E. unfold train_token in E.
    apply bind_ok in E. destruct E as ([m2 h2] & E & E2). inversion E2; subst.
    apply (train_word_no_tilde (m0, init_history n) w (m1, h2)); auto.
    split; [assumption | apply init_history_no_tilde].
  - apply (for_each_partial _ _ (train_song n)
             (Forall (fun e => tilde_last (fst e) = false)) (map re_split items) [] m);
      [constructor | | assumption].
    intros m0 item m1 Hm0 Hitem E. unfold train_song in E.
    apply bind_ok in E. destruct E as ([m2 h2] & E & E2). inversion E2; subst.
    apply in_map_iff in Hitem. destruct Hitem as (s & <- & Hs).
    apply (for_each_partial _ _ train_word
             (fun st => Forall (fun e => tilde_last (fst e) = false) (fst st)
                        /\ tilde_last (snd st) = false)
             (re_split s) (m0, init_history n) (m1, h2));
      [split; [assumption | apply init_history_no_tilde] | | assumption].
    intros st w st' Hst Hw E'.
    apply (train_word_no_tilde st w st'); [| assumption | assumption].
    apply Htok. apply in_flat_map. exists s. split; assumption.
Qed.

(** X11. For n >= 2, a model trained on a corpus in which no token is "~"
    has no key that ends with the word "~" (the initial history ends with a
    space, every other key ends with a token).  So in generation from such
    a model the fallback is absorbing. *)
Theorem trained_keys_do_not_end_with_tilde :
  forall (l : lyrics) (n : nat),
    2 <= n ->
    ~ In "~" (corpus_tokens l) ->
    exists lm, train_lm l n = Ok lm /\ no_tilde_key lm = true.
Proof.
  intros l n Hn Hno.
  destruct (train_lm_eq l n Hn) as (m & Em & _ & Elm).
  eexists. split; [exact Elm |].
  pose proof (train_counts_no_tilde l n m Hno Em) as Hm.
  unfold no_tilde_key. apply forallb_forall. intros e He.
  apply in_map_iff in He. destruct He as (e0 & <- & He0). cbn [fst].
  rewrite Forall_forall in Hm. rewrite (Hm e0 He0). reflexivity.
Qed.

Lemma trained_keys_do_not_end_with_tilde_witness :
  exists lm, train_lm love_songs 3 = Ok lm /\ no_tilde_key lm = true.
Proof.
  apply (trained_keys_do_not_end_with_tilde love_songs 3).
  - lia.
  - intros H. vm_compute in H. intuition discriminate.
Defined.

(** ** [unzip] *)

(** X12. [unzip] gives no columns for the empty list, which the caller
    cannot unpack; for any other list of pairs it gives two columns as long
    as the list, and zipping them again gives the list back. *)
Theorem unzip_zip_round_trip :
  forall (A B : Type) (pairs : list (A * B)),
    (unzip pairs = None <-> pairs = []) /\
    forall a b, unzip pairs = Some (a, b) ->
      length a = length pairs /\ length b = length pairs /\ combine a b = pairs.
Proof.
  intros A B pairs. split.
  - destruct pairs; cbn [unzip]; split; intros H; congruence.
  - assert (G : forall l : list (A * B),
              length (map fst l) = length l /\ length (map snd l) = length l /\
              combine (map fst l) (map snd l) = l).
    { intros l. rewrite !length_map. split; [reflexivity |]. split; [reflexivity |].
      induction l as [| [x y] l IH]; cbn [map combine fst snd]; [| rewrite IH];
        reflexivity. }
    intros a b H. destruct pairs as [| p pairs]; [discriminate |].
    cbn [unzip] in H. inversion H; subst a b. apply (G (p :: pairs)).
Qed.

Lemma unzip_zip_round_trip_witness :
  (unzip [("cats", 1 # 2); ("dogs", 1 # 2)]%Q = None <->
   [("cats", 1 # 2); ("dogs", 1 # 2)]%Q = []) /\
  forall a b, unzip [("cats", 1 # 2); ("dogs", 1 # 2)]%Q = Some (a, b) ->
    length a = length [("cats", 1 # 2); ("dogs", 1 # 2)]%Q /\
    length b = length [("cats", 1 # 2); ("dogs", 1 # 2)]%Q /\
    combine a b = [("cats", 1 # 2); ("dogs", 1 # 2)]%Q.
Proof.
  apply (unzip_zip_round_trip string Q [("cats", 1 # 2); ("dogs", 1 # 2)]%Q).
Defined.

(** ** [normalize] on any counter *)

Lemma count_le_total : forall c e, In e c -> snd e <= total c.
Proof.
  induction c as [| x c IH]; intros e H; [destruct H |].
  destruct H as [<- | H]; cbn [total fold_right].
  - lia.
  - specialize (IH e H). unfold total in IH. lia.
Qed.

Lemma freq_le_one : forall cnt tot,
  cnt <= tot -> tot <> 0 ->
  (Qred (inject_Z (Z.of_nat cnt) / inject_Z (Z.of_nat tot)) <= 1)%Q.
Proof.
  intros cnt tot Hle Hne. rewrite Qred_correct.
  apply Qle_shift_div_r.
  - unfold Qlt; simpl. lia.
  - rewrite Qmult_1_l. rewrite <- Zle_Qle. lia.
Qed.

(** X13. [normalize] on a counter whose counts are not negative.  It
    raises exactly when the counter is not empty and all its counts are
    zero, and what it raises then is ZeroDivisionError.  Otherwise it
    returns a list with the same words, each once, with every frequency
    between 0 and 1, and, unless the counter is empty, frequencies that sum
    to 1. *)
Theorem normalize_outcomes :
  forall c : counter,
    match normalize c with
    | Ok dist =>
        (c = [] \/ total c <> 0) /\
        Permutation (map fst dist) (map fst c) /\
        Forall (fun p => 0 <= snd p /\ snd p <= 1)%Q dist /\
        (c <> [] -> sumQ (map snd dist) == 1)%Q
    | Raise e => e = ZeroDivisionError /\ c <> [] /\ total c = 0
    end.
Proof.
  intros c. destruct (Nat.eq_dec (total c) 0) as [Hz | Hnz].
  - destruct c as [| x c].
    + change (normalize []) with (@Ok (list (string * Q)) []).
      split; [left; reflexivity |]. split; [constructor |].
      split; [constructor | intros H; congruence].
    + rewrite (normalize_zero (x :: c)) by (discriminate || assumption).
      split; [reflexivity |]. split; [discriminate | assumption].
  - rewrite (normalize_eq c Hnz).
    split; [right; assumption |]. unfold distribution at 1 2. split.
    + rewrite map_map. cbn [fst]. apply Permutation_map. apply most_common_perm.
    + split; [| intros _; apply distribution_sum; assumption].
      apply Forall_forall. intros p Hp. apply in_map_iff in Hp.
      destruct Hp as (e & <- & He). cbn [snd]. split; [apply freq_nonneg |].
      apply freq_le_one; [| assumption].
      apply count_le_total. apply (Permutation_in _ (most_common_perm c)). assumption.
Qed.

(** The three outcomes, on counters with a zero count. *)
Example normalize_outcomes_examples :
  normalize [] = Ok [] /\
  normalize [("la", 0); ("li", 0)] = Raise ZeroDivisionError /\
  normalize [("la", 1); ("li", 0); ("lo", 3)] =
    Ok [("lo", 3 # 4); ("la", 1 # 4); ("li", 0)]%Q.
Proof.
  repeat split; vm_compute; reflexivity.
Qed.

(** ** The key of an artist *)

Lemma join_hyphen_split : forall s,
  Str.join "-" (Str.split_on at_space s) = hyphenate s.
Proof.
  induction s as [| c s IH]; [reflexivity |].
  cbn [Str.split_on hyphenate]. unfold at_space at 1.
  destruct (Ascii.eqb Str.space c).
  - destruct (Str.split_on at_space s) as [| w ws] eqn:S;
      [exfalso; eapply StrFacts.split_on_nonnil; eassumption |].
    change (Str.join "-" ("" :: w :: ws)) with (String "-" (Str.join "-" (w :: ws))).
    rewrite IH. reflexivity.
  - destruct (Str.split_on at_space s) as [| w ws] eqn:S;
      [exfalso; eapply StrFacts.split_on_nonnil; eassumption |].
    rewrite <- IH. destruct ws; reflexivity.
Qed.

Lemma hyphenate_no_space : forall s,
  Str.contains_char Str.space s = false -> hyphenate s = s.
Proof.
  induction s as [| c s IH]; intros H; [reflexivity |].
  cbn [Str.contains_char] in H. apply orb_false_iff in H. destruct H as [Hc Hs].
  cbn [hyphenate]. rewrite Hc, (IH Hs). reflexivity.
Qed.

Lemma hyphenate_spacefree : forall s, Str.contains_char Str.space (hyphenate s) = false.
Proof.
  induction s as [| c s IH]; [reflexivity |].
  cbn [hyphenate Str.contains_char]. rewrite IH, orb_false_r.
  destruct (Ascii.eqb Str.space c) eqn:E; [reflexivity | assumption].
Qed.

Lemma artist_key_eq : forall artist, artist_key artist = hyphenate (lower artist).
Proof.
  intros artist. unfold artist_key.
  destruct (Str.contains_char Str.space (lower artist)) eqn:E.
  - apply join_hyphen_split.
  - symmetry. apply hyphenate_no_space. assumption.
Qed.

Lemma lower_char_idem : forall c, lower_char (lower_char c) = lower_char c.
Proof.
  intros [[] [] [] [] [] [] [] []]; reflexivity.
Qed.

Lemma lower_char_space : forall c,
  Ascii.eqb Str.space (lower_char c) = Ascii.eqb Str.space c.
Proof.
  intros [[] [] [] [] [] [] [] []]; reflexivity.
Qed.

Lemma lower_hyphenate : forall s, lower (hyphenate (lower s)) = hyphenate (lower s).
Proof.
  induction s as [| c s IH]; [reflexivity |].
  cbn [lower hyphenate]. rewrite IH. f_equal.
  destruct (Ascii.eqb Str.space (lower_char c)); [reflexivity | apply lower_char_idem].
Qed.

Lemma hyphenate_length : forall s, String.length (hyphenate s) = String.length s.
Proof.
  induction s as [| c s IH]; [reflexivity |]. cbn [hyphenate String.length].
  rewrite IH. reflexivity.
Qed.

Lemma lower_length : forall s, String.length (lower s) = String.length s.
Proof.
  induction s as [| c s IH]; [reflexivity |]. cbn [lower String.length].
  rewrite IH. reflexivity.
Qed.

(** X14. The key that [start] computes from the name typed in is the name
    in lower case with every space replaced by a hyphen: it has the length
    of the name and no space, and a key is its own key, so that typing
    "bob-dylan" finds what typing "Bob Dylan" finds. *)
Theorem artist_key_is_hyphenated_lower_case :
  forall artist : string,
    artist_key artist = hyphenate (lower artist) /\
    Str.contains_char Str.space (artist_key artist) = false /\
    String.length (artist_key artist) = String.length artist /\
    artist_key (artist_key artist) = artist_key artist.
Proof.
  intros artist. rewrite !artist_key_eq.
  split; [reflexivity |].
  split; [apply hyphenate_spacefree |].
  split; [rewrite hyphenate_length; apply lower_length |].
  rewrite lower_hyphenate.
  apply hyphenate_no_space, hyphenate_spacefree.
Qed.

(** The names offered by the prompt that have a space or a capital inside. *)
Example artist_key_examples :
  artist_key "Lin-Manuel Miranda" = "lin-manuel-miranda" /\
  artist_key "Bob Dylan" = "bob-dylan" /\
  artist_key "bob-dylan" = "bob-dylan" /\
  artist_key "Adele" = "adele".
Proof.
  repeat split; reflexivity.
Qed.

(** ** The keys of a trained model *)

Lemma train_word_keys_hist : forall n st w st',
  3 <= n -> Str.contains_char Str.space w = false ->
  (Forall (fun e => hist_inv n (fst e)) (fst st) /\ hist_inv n (snd st)) ->
  train_word st w = Ok st' ->
  Forall (fun e => hist_inv n (fst e)) (fst st') /\ hist_inv n (snd st').
Proof.
  intros n [m h] w st' Hn Hw [Hm Hh] H. cbn [fst snd] in Hm, Hh.
  destruct (train_word_hist n (m, h) w Hn Hh Hw) as (st1 & E1 & H1).
  rewrite E1 in H. inversion H; subst st1. split; [| assumption].
  unfold train_word in E1. destruct (skipped w); [inversion E1; assumption |].
  apply bind_ok in E1. destruct E1 as (h' & _ & E1). inversion E1. cbn [fst].
  unfold model_incr.
  apply upsert_Forall with (P := fun k (_ : counter) => hist_inv n k); auto.
Qed.

Lemma train_counts_keys_hist : forall l n m,
  3 <= n -> train_counts l n = Ok m -> Forall (fun e => hist_inv n (fst e)) m.
Proof.
  intros [s | items] n m Hn H; cbn [train_counts] in H.
  - apply (for_each_partial _ _ (train_token n)
             (Forall (fun e => hist_inv n (fst e))) (re_split s) [] m);
      [constructor | | assumption].
    intros m0 w m1 Hm0 Hw E. unfold train_token in E.
    apply bind_ok in E. destruct E as ([m2 h2] & E & E2). inversion E2; subst.
    apply (train_word_keys_hist n (m0, init_history n) w (m1, h2)); auto.
    + eapply re_split_spacefree; eassumption.
    + split; [assumption | left; reflexivity].
  - apply (for_each_partial _ _ (train_song n)
             (Forall (fun e => hist_inv n (fst e))) (map re_split items) [] m);
      [constructor | | assumption].
    intros m0 item m1 Hm0 Hitem E. unfold train_song in E.
    apply bind_ok in E. destruct E as ([m2 h2] & E & E2). inversion E2; subst.
    apply in_map_iff in Hitem. destruct Hitem as (s & <- & Hs).
    apply (for_each_partial _ _ train_word
             (fun st => Forall (fun e => hist_inv n (fst e)) (fst st)
                        /\ hist_inv n (snd st))
             (re_split s) (m0, init_history n) (m1, h2));
      [split; [assumption | left; reflexivity] | | assumption].
    intros st w st' Hst Hw E'.
    apply (train_word_keys_hist n st w st'); auto.
    eapply re_split_spacefree; eassumption.
Qed.

Lemma lm_get_of_In : forall (lm : language_model) h d,
  NoDup (map fst lm) -> In (h, d) lm -> lm_get lm h = Some d.
Proof.
  induction lm as [| [h0 d0] lm IH]; cbn [map fst lm_get]; intros h d Hnd Hin;
    [destruct Hin |].
  inversion Hnd as [| ? ? Hh0 Hlm]; subst.
  destruct Hin as [E | Hin].
  - inversion E; subst. rewrite String.eqb_refl. reflexivity.
  - destruct (String.eqb_spec h h0) as [-> | _]; [| auto].
    exfalso. apply Hh0. apply (in_map fst) in Hin. assumption.
Qed.

(** X15. For n >= 3 the model that training returns is a dictionary in
    which every entry can be looked up under its key, and every key is the
    initial history or exactly (n-1) non-empty words joined by single
    spaces; in either case a key holds (n-1) words. *)
Theorem trained_model_keys :
  forall (l : lyrics) (n : nat),
    3 <= n ->
    exists lm,
      train_lm l n = Ok lm /\
      NoDup (map fst lm) /\
      forall h dist, In (h, dist) lm ->
        lm_get lm h = Some dist /\
        (h = init_history n \/ is_history n h = true) /\
        length (history_words h) = n - 1.
Proof.
  intros l n Hn.
  destruct (train_lm_eq l n) as (m & Em & [Hnd _] & Elm); [lia |].
  pose proof (train_counts_keys_hist l n m Hn Em) as Hk.
  eexists. split; [exact Elm |].
  assert (Hnd' : NoDup (map fst (map (fun e : string * counter =>
                                        (fst e, distribution (snd e))) m))).
  { rewrite map_map. cbn [fst]. assumption. }
  split; [assumption |].
  intros h dist Hin. split; [apply lm_get_of_In; assumption |].
  apply in_map_iff in Hin. destruct Hin as (e & E & He). inversion E; subst.
  rewrite Forall_forall in Hk. specialize (Hk e He).
  split; [exact Hk | apply hist_inv_length; assumption].
Qed.

Lemma trained_model_keys_witness :
  exists lm,
    train_lm love_songs 4 = Ok lm /\
    NoDup (map fst lm) /\
    forall h dist, In (h, dist) lm ->
      lm_get lm h = Some dist /\
      (h = init_history 4 \/ is_history 4 h = true) /\
      length (history_words h) = 4 - 1.
Proof.
  apply (trained_model_keys love_songs 4). lia.
Defined.
